(** * Symmetrization routines of [lib/transportdata.py]

    A shallow embedding of the seven functions of the module
    [lib.transportdata] and the properties of them that the specification
    states, followed by [processData] and [ndarrayToList] of the widget in
    [previewTransportData.py], which call them.

    Conventions of the embedding.
    - The program is Python 2 ([print] statements in the caller), so [/]
      between integers ([len(y)/2], [2*len(y)/4]) is floor division:
      [Nat.div].
    - A signal is a one-dimensional numpy array of float64, the [Signal]
      of the data model: [list float] over Rocq's primitive binary64
      floats, whose [add], [sub] and [div] are the IEEE operations numpy
      applies element by element.
    - Indices, pivots and steps are non-negative ([nat]), as the data model
      has them ([CenterIndex], [SymmetryStep]); the optional pivot
      [idx = None] is an [option nat].
    - A call either returns ([Ok]) or raises ([Raise]); the exceptions are
      the [Exception] the functions raise themselves and the [ValueError]
      and [IndexError] numpy raises on a shape mismatch and on an index out
      of bounds. *)

From Stdlib Require Import Floats.PrimFloat.
From stdpp Require Import base list strings.

Open Scope nat_scope.

(** ** Python and numpy *)

Module Numpy.

Inductive exn : Type :=
  | Exception (msg : string)
  | ValueError
  | IndexError.

Inductive result (A : Type) : Type :=
  | Ok (a : A)
  | Raise (e : exn).
Arguments Ok {A} a.
Arguments Raise {A} e.

(** An exception raised by a statement ends the call: the error monad,
    with stdpp's notation [x ← m; k]. *)
#[export] Instance result_bind : MBind result := λ A B k m,
  match m with
  | Ok a => k a
  | Raise e => Raise e
  end.
#[export] Instance result_ret : MRet result := λ A a, Ok a.

(** A one-dimensional array of float64. *)
Abbreviation ndarray := (list float).

(** [np.size(y)], [len(y)] *)
Definition size {A} (y : list A) : nat := length y.

(** [y[a:b]] for [0 <= a], [0 <= b]: both bounds are clipped to the
    length, and the slice is empty when [b <= a]. *)
Definition slice {A} (y : list A) (a b : nat) : list A :=
  take (b - a) (drop a y).

(** [y[a:]] *)
Definition slice_from {A} (y : list A) (a : nat) : list A := drop a y.

(** [y[::-1]] *)
Definition reversed {A} (y : list A) : list A := reverse y.

(** [y[0::2]]: every second element, the first one included. *)
Fixpoint stride2 {A} (y : list A) : list A :=
  match y with
  | [] => []
  | a :: t => a :: match t with
                   | [] => []
                   | _ :: t' => stride2 t'
                   end
  end.

(** [y[start::2]] *)
Definition slice_step2 {A} (y : list A) (start : nat) : list A :=
  stride2 (drop start y).

(** [y[i]] for [0 <= i]: an index past the end raises [IndexError]. *)
Definition getitem (y : ndarray) (i : nat) : result float :=
  match y !! i with
  | Some v => Ok v
  | None => Raise IndexError
  end.

(** [s[i] = v] for [0 <= i]. *)
Definition setitem (s : ndarray) (i : nat) (v : float) : result ndarray :=
  if decide (i < length s) then Ok (<[i := v]> s) else Raise IndexError.

(** [a op b] on two one-dimensional arrays, with numpy's broadcasting: equal
    shapes combine element by element, a shape [(1,)] stretches to the other
    shape (also to [(0,)]), anything else is a [ValueError]. *)
Definition broadcast (op : float → float → float) (a b : ndarray)
  : result ndarray :=
  if decide (length a = length b) then Ok (zip_with op a b)
  else match a, b with
       | [x], _ => Ok (op x <$> b)
       | _, [z] => Ok ((λ v, op v z) <$> a)
       | _, _ => Raise ValueError
       end.

Definition np_add : ndarray → ndarray → result ndarray := broadcast PrimFloat.add.
Definition np_sub : ndarray → ndarray → result ndarray := broadcast PrimFloat.sub.

(** [a / 2] *)
Definition halve (v : float) : float := PrimFloat.div v 2%float.
Definition np_halve (a : ndarray) : ndarray := halve <$> a.

(** [np.zeros(n)] *)
Definition zeros (n : nat) : ndarray := replicate n 0%float.

(** [np.hstack((a, b))] *)
Definition hstack {A} (a b : list A) : list A := a ++ b.

(** [for i in range(start, start + count): s = body i s], stopping at the
    first exception. *)
Fixpoint for_range {S} (body : nat → S → result S) (start count : nat) (s : S)
  : result S :=
  match count with
  | 0 => Ok s
  | Datatypes.S c => s' ← body start s; for_range body (Datatypes.S start) c s'
  end.

(** [not n] on an integer. *)
Definition not_int (n : nat) : bool := bool_decide (n = 0).

(** [not idx] on an optional integer: true for [None] and for [0]. *)
Definition not_opt (idx : option nat) : bool :=
  match idx with
  | None => true
  | Some i => not_int i
  end.

End Numpy.

(** ** The module [lib.transportdata] *)

Module transportdata.
Import Numpy.

Definition msg_uneven : string :=
  "Data needs to have an uneven number of elements if no center index (idx) is provided".
Definition msg_even : string :=
  "Data needs to have an even number of elements".

(** The pivot and the end of the comparison span that both
    [symmetrizeSignalZero] and [antiSymmetrizeSignalZero] compute. *)
Definition center_span (y : ndarray) (idx : option nat) : nat * nat :=
  if not_opt idx then (size y / 2, size y)
  else let i := default 0 idx in (i, min (size y) (i * 2)).

Definition symmetrizeSignalZero (y : ndarray) (idx : option nat)
  : result ndarray :=
  if not_int (size y mod 2) then Raise (Exception msg_uneven)
  else
    let '(idx, idx_end) := center_span y idx in
    s ← np_add (slice y 0 idx) (reversed (slice y (idx + 1) idx_end));
    Ok (np_halve s).

Definition antiSymmetrizeSignalZero (y : ndarray) (idx : option nat)
  : result ndarray :=
  if not_int (size y mod 2) then Raise (Exception msg_uneven)
  else
    let '(idx, idx_end) := center_span y idx in
    s ← np_sub (slice y 0 idx) (reversed (slice y (idx + 1) idx_end));
    Ok (np_halve s).

Definition antiSymmetrizeSignal (y : ndarray) (symmetryStep : nat)
  : result ndarray :=
  if negb (not_int (size y mod 2)) then Raise (Exception msg_even)
  else
    for_range
      (λ idx s, a ← getitem y idx;
                b ← getitem y (idx + symmetryStep);
                setitem s idx (halve (PrimFloat.sub a b)))
      0 (size y / 2) (zeros (size y / 2)).

Definition symmetrizeSignal (y : ndarray) (symmetryStep : nat)
  : result ndarray :=
  if negb (not_int (size y mod 2)) then Raise (Exception msg_even)
  else
    for_range
      (λ idx s, a ← getitem y idx;
                b ← getitem y (idx + symmetryStep);
                setitem s idx (halve (PrimFloat.add a b)))
      0 (size y / 2) (zeros (size y / 2)).

(** [yL] and [yU] of the two up/down functions. *)
Definition lower_half (y : ndarray) : ndarray :=
  hstack (slice y 0 (size y / 4)) (slice y (2 * size y / 4) (3 * size y / 4)).
Definition upper_half (y : ndarray) : ndarray :=
  hstack (slice y (size y / 4) (2 * size y / 4)) (slice_from y (3 * size y / 4)).

Definition symmetrizeSignalUpDown (y : ndarray) (symmetryStep : nat)
  : result ndarray :=
  let yL := lower_half y in
  let yU := upper_half y in
  sL ← symmetrizeSignal yL symmetryStep;
  sU ← symmetrizeSignal yU symmetryStep;
  Ok (hstack sL sU).

Definition antiSymmetrizeSignalUpDown (y : ndarray) (symmetryStep : nat)
  : result ndarray :=
  let yL := lower_half y in
  let yU := upper_half y in
  sL ← antiSymmetrizeSignal yL symmetryStep;
  sU ← antiSymmetrizeSignal yU symmetryStep;
  Ok (hstack sL sU).

Definition separateAlternatingSignal {A} (x : list A) : list A * list A :=
  (slice_step2 x 0, slice_step2 x 1).

End transportdata.

Import Numpy transportdata.


(** ** The caller: [plotWidget] of [previewTransportData.py] *)

Module previewTransportData.
Import Numpy transportdata.

(** What a method of the widget can raise: an exception of the library or
    of numpy, the [AttributeError] of a name the module [lib.transportdata]
    does not define, and the [TypeError] of a call with too few
    arguments. *)
Inductive error : Type :=
  | Lib (e : exn)
  | AttributeError (name : string)
  | TypeError (callee : string).

Inductive outcome (A : Type) : Type :=
  | Return (a : A)
  | Fail (e : error).
Arguments Return {A} a.
Arguments Fail {A} e.

#[export] Instance outcome_bind : MBind outcome := λ A B k m,
  match m with
  | Return a => k a
  | Fail e => Fail e
  end.
#[export] Instance outcome_ret : MRet outcome := λ A a, Return a.

(** A call into the library or into numpy. *)
Definition call {A} (r : result A) : outcome A :=
  match r with
  | Ok a => Return a
  | Raise e => Fail (Lib e)
  end.

(** Python's [max(a)] over the samples of an array: the first sample, then
    every later one that compares greater than the running maximum;
    [ValueError] on an empty sequence. *)
Definition py_max (a : ndarray) : result float :=
  match a with
  | [] => Raise ValueError
  | v :: t => Ok (foldl (λ m item, if PrimFloat.ltb m item then item else m) v t)
  end.

(** [a - m] for an array and a scalar. *)
Definition np_sub_scalar (a : ndarray) (m : float) : ndarray :=
  (λ v, PrimFloat.sub v m) <$> a.

(** The fields of [plotWidget] that [processData] reads, after
    [updateCheckboxes]: a check state is true when the box is checked. *)
Record plotWidget : Type := {
  self_x : ndarray;
  self_y : ndarray;
  self_average : bool;
  self_symmetrize : bool;
  self_antiSymmetrize : bool;
  self_norm : bool
}.

Definition processData (self : plotWidget) : outcome (ndarray * ndarray) :=
  let x := (separateAlternatingSignal (self_x self)).1 in
  y ← call (np_sub (separateAlternatingSignal (self_y self)).1
                   (separateAlternatingSignal (self_y self)).2);
  let x := if self_average self then x else x in
  y ← (if self_norm self
       then m ← call (py_max y); Return (np_sub_scalar y m)
       else Return y);
  y ← (if self_symmetrize self
       then Fail (AttributeError "SymmetrizeSignal")
       else Return y);
  y ← (if self_antiSymmetrize self
       then Fail (TypeError "antiSymmetrizeSignal")
       else Return y);
  Return (x, y).

(** [ndarrayToList]: the samples appended one by one to an empty list. *)
Definition ndarrayToList (array : ndarray) : result (list float) :=
  for_range (λ i x, v ← getitem array i; Ok (x ++ [v])) 0 (size array) [].

End previewTransportData.

Import previewTransportData.

(** ** The vocabulary of the specification *)

(** The quadrants [Q1 .. Q4] of the up/down contract: [quadrant y k] is the
    [k]-th block of [N/4] samples, counting from 0. *)
Definition quadrant (y : ndarray) (k : nat) : ndarray :=
  take (length y / 4) (drop (k * (length y / 4)) y).

(** Re-interleaving by alternation: [e[0], o[0], e[1], o[1], ...]; what is
    left of the longer sequence goes last. *)
Fixpoint interleave {A} (e o : list A) : list A :=
  match e, o with
  | a :: e', b :: o' => a :: b :: interleave e' o'
  | _, _ => e ++ o
  end.

(** The loop that [symmetrizeSignal] ([op] is [+]) and
    [antiSymmetrizeSignal] ([op] is [-]) run on an even-length signal. *)
Definition shift_loop (op : float → float → float) (y : ndarray) (step : nat)
  : result ndarray :=
  for_range (λ idx s, a ← getitem y idx; b ← getitem y (idx + step);
                      setitem s idx (halve (op a b)))
    0 (length y / 2) (zeros (length y / 2)).

(** [first_is w r]: the call returned and its first sample is [w]. *)
Definition first_is (w : float) (r : result ndarray) : bool :=
  match r with
  | Ok (v :: _) => PrimFloat.eqb v w
  | _ => false
  end.

(** ** Slices *)

Section slices.
Context {A : Type}.
Implicit Types y : list A.

Lemma slice_0 y b : slice y 0 b = take b y.
Proof. unfold slice. by rewrite Nat.sub_0_r, drop_0. Qed.

Lemma length_slice y a b : length (slice y a b) = min b (length y) - a.
Proof. unfold slice. rewrite length_take, length_drop. lia. Qed.

Lemma lookup_slice y a b n : n < b - a → slice y a b !! n = y !! (a + n).
Proof. intros Hn. unfold slice. by rewrite lookup_take_lt, lookup_drop. Qed.

Lemma slice_to_end y a b : length y ≤ b → slice y a b = slice_from y a.
Proof.
  intros Hb. unfold slice, slice_from.
  apply take_ge. rewrite length_drop. lia.
Qed.

Lemma lookup_reversed y n :
  n < length y → reversed y !! n = y !! (length y - S n).
Proof. apply reverse_lookup. Qed.

Lemma length_reversed y : length (reversed y) = length y.
Proof. apply length_reverse. Qed.

End slices.

(** ** The parity tests *)

Lemma not_int_mod2_even (n : nat) : not_int (n mod 2) = true ↔ n mod 2 = 0.
Proof. unfold not_int. apply bool_decide_eq_true. Qed.

Lemma not_int_mod2_odd (n : nat) : not_int (n mod 2) = false ↔ n mod 2 = 1.
Proof.
  unfold not_int. rewrite bool_decide_eq_false.
  pose proof (Nat.mod_upper_bound n 2). lia.
Qed.

Lemma odd_halves (n : nat) : n mod 2 = 1 → n = 2 * (n / 2) + 1.
Proof. intros H. pose proof (Nat.div_mod_eq n 2). lia. Qed.

Lemma even_halves (n : nat) : n mod 2 = 0 → n = 2 * (n / 2).
Proof. intros H. pose proof (Nat.div_mod_eq n 2). lia. Qed.

(** ** Broadcasting of equal shapes *)

Lemma broadcast_same_length op (a b : ndarray) :
  length a = length b → broadcast op a b = Ok (zip_with op a b).
Proof. intros H. unfold broadcast. by rewrite decide_True. Qed.

Lemma broadcast_mismatch op (a b : ndarray) :
  length a ≠ length b → length a ≠ 1 → length b ≠ 1 →
  broadcast op a b = Raise ValueError.
Proof.
  intros Hab Ha Hb. unfold broadcast. rewrite decide_False by done.
  destruct a as [|x [|x' a]], b as [|z [|z' b]]; simpl in *; congruence.
Qed.

(** ** Symmetrization around the centre *)

Lemma center_span_None (y : ndarray) : center_span y None = (size y / 2, size y).
Proof. reflexivity. Qed.

Lemma center_span_0 (y : ndarray) : center_span y (Some 0) = center_span y None.
Proof. reflexivity. Qed.

Lemma center_span_pos (y : ndarray) (i : nat) :
  0 < i → center_span y (Some i) = (i, min (size y) (i * 2)).
Proof.
  intros Hi. unfold center_span, not_opt, not_int.
  rewrite bool_decide_eq_false_2 by lia. reflexivity.
Qed.

(** The two operands of the implicit-pivot path have the same shape, and
    position [n] of the result pairs [y[n]] with [y[N-1-n]]. *)
Lemma center_pairs op (y : ndarray) :
  length y mod 2 = 1 →
  ∃ s, broadcast op (slice y 0 (length y / 2))
         (reversed (slice y (length y / 2 + 1) (length y))) = Ok s
       ∧ length s = length y / 2
       ∧ ∀ n, n < length y / 2 →
           ∃ u v, y !! n = Some u ∧ y !! (length y - 1 - n) = Some v
                  ∧ s !! n = Some (op u v).
Proof.
  intros Hodd. pose proof (odd_halves _ Hodd) as HN.
  set (h := length y / 2) in *.
  assert (Hla : length (slice y 0 h) = h) by (rewrite length_slice; lia).
  assert (Hlb : length (slice y (h + 1) (length y)) = h)
    by (rewrite length_slice; lia).
  eexists. split.
  { apply broadcast_same_length. by rewrite length_reversed, Hla, Hlb. }
  split.
  { rewrite length_zip_with, length_reversed, Hla, Hlb. lia. }
  intros n Hn.
  destruct (lookup_lt_is_Some_2 y n) as [u Hu]; [lia|].
  destruct (lookup_lt_is_Some_2 y (length y - 1 - n)) as [v Hv]; [lia|].
  exists u, v. split; [done|]. split; [done|].
  rewrite lookup_zip_with, slice_0, lookup_take_lt by done.
  rewrite lookup_reversed, Hlb by lia.
  rewrite lookup_slice by lia.
  replace (h + 1 + (h - S n)) with (length y - 1 - n) by lia.
  by rewrite Hu, Hv.
Qed.

Lemma symmetrizeSignalZero_odd (y : ndarray) (idx : option nat) :
  length y mod 2 = 1 →
  symmetrizeSignalZero y idx =
    (let '(i, e) := center_span y idx in
     s ← np_add (slice y 0 i) (reversed (slice y (i + 1) e)); Ok (np_halve s)).
Proof.
  intros H. unfold symmetrizeSignalZero, size.
  apply not_int_mod2_odd in H. by rewrite H.
Qed.

Lemma antiSymmetrizeSignalZero_odd (y : ndarray) (idx : option nat) :
  length y mod 2 = 1 →
  antiSymmetrizeSignalZero y idx =
    (let '(i, e) := center_span y idx in
     s ← np_sub (slice y 0 i) (reversed (slice y (i + 1) e)); Ok (np_halve s)).
Proof.
  intros H. unfold antiSymmetrizeSignalZero, size.
  apply not_int_mod2_odd in H. by rewrite H.
Qed.

Lemma lookup_np_halve (s : ndarray) n w :
  s !! n = Some w → np_halve s !! n = Some (halve w).
Proof. intros H. unfold np_halve. by rewrite list_lookup_fmap, H. Qed.

(** C4: for an odd-length signal and no explicit pivot, both functions
    return a sequence of length [N/2]; element [n] of the symmetrized
    signal is [(y[n] + y[N-1-n]) / 2] and element [n] of the
    antisymmetrized one is [(y[n] - y[N-1-n]) / 2]. *)
Theorem C4_implicit_pivot_elements (y : ndarray) :
  length y mod 2 = 1 →
  (∃ s, symmetrizeSignalZero y None = Ok s
        ∧ length s = length y / 2
        ∧ ∀ n, n < length y / 2 →
            ∃ u v, y !! n = Some u ∧ y !! (length y - 1 - n) = Some v
                   ∧ s !! n = Some (PrimFloat.div (PrimFloat.add u v) 2))
  ∧ (∃ s, antiSymmetrizeSignalZero y None = Ok s
        ∧ length s = length y / 2
        ∧ ∀ n, n < length y / 2 →
            ∃ u v, y !! n = Some u ∧ y !! (length y - 1 - n) = Some v
                   ∧ s !! n = Some (PrimFloat.div (PrimFloat.sub u v) 2)).
Proof.
  intros Hodd. split.
  - destruct (center_pairs PrimFloat.add y Hodd) as (s & Hs & Hlen & Hel).
    exists (np_halve s). split; [|split].
    + rewrite symmetrizeSignalZero_odd, center_span_None by done.
      unfold np_add, size. by rewrite Hs.
    + unfold np_halve. by rewrite length_fmap.
    + intros n Hn. destruct (Hel n Hn) as (u & v & Hu & Hv & Hsn).
      exists u, v. repeat split; try done. by apply lookup_np_halve in Hsn.
  - destruct (center_pairs PrimFloat.sub y Hodd) as (s & Hs & Hlen & Hel).
    exists (np_halve s). split; [|split].
    + rewrite antiSymmetrizeSignalZero_odd, center_span_None by done.
      unfold np_sub, size. by rewrite Hs.
    + unfold np_halve. by rewrite length_fmap.
    + intros n Hn. destruct (Hel n Hn) as (u & v & Hu & Hv & Hsn).
      exists u, v. repeat split; try done. by apply lookup_np_halve in Hsn.
Qed.

Lemma C4_implicit_pivot_elements_witness :
  ∃ s, symmetrizeSignalZero [1; 2; 3]%float None = Ok s ∧ length s = 1.
Proof.
  destruct (C4_implicit_pivot_elements [1; 2; 3]%float) as [(s & Hs & Hl & _) _].
  - reflexivity.
  - exists s. split; [exact Hs | exact Hl].
Defined.

(** Two results that differ in their first sample are different. *)
Lemma result_neq_by_first (w : float) (r r' : result ndarray) :
  first_is w r = true → first_is w r' = false → r ≠ r'.
Proof. intros H H' ->. congruence. Qed.

(** C5 (amended): on [y = [1,2,3,4,5]] without a pivot the pivot is 2 and
    the span ends at 5; [y[0:2] = [1,2]] is paired with the reversed slice
    [y[3:5][::-1] = [5,4]], so the result is [[(1+5)/2, (2+4)/2] = [3.0, 3.0]]. *)
Theorem C5_scenario_1 :
  let y := [1; 2; 3; 4; 5]%float in
  center_span y None = (2, 5)
  ∧ slice y 0 2 = [1; 2]%float
  ∧ slice y 3 5 = [4; 5]%float
  ∧ reversed (slice y 3 5) = [5; 4]%float
  ∧ symmetrizeSignalZero y None = Ok [3; 3]%float.
Proof. repeat split. Qed.

(** C5 (as stated) fails: the result is not [[2.5, 3.5]]. *)
Lemma C5_scenario_1_counterexample :
  symmetrizeSignalZero [1; 2; 3; 4; 5]%float None ≠ Ok [2.5; 3.5]%float.
Proof. by apply (result_neq_by_first 3%float). Qed.

(** C1: the code takes an explicit pivot [0] for an omitted one: for every
    signal, [idx = 0] gives what [idx = None] gives. On [[1,2,3]] that is
    [[(1+3)/2]] and [[(1-3)/2]], of length 1, not the empty sequence. *)
Theorem C1_pivot_zero_is_taken_as_omitted :
  (∀ y : ndarray, symmetrizeSignalZero y (Some 0) = symmetrizeSignalZero y None)
  ∧ (∀ y : ndarray,
       antiSymmetrizeSignalZero y (Some 0) = antiSymmetrizeSignalZero y None)
  ∧ symmetrizeSignalZero [1; 2; 3]%float (Some 0) = Ok [2]%float
  ∧ antiSymmetrizeSignalZero [1; 2; 3]%float (Some 0) = Ok [-1]%float
  ∧ symmetrizeSignalZero [1; 2]%float (Some 0) = Raise (Exception msg_uneven).
Proof. repeat split. Qed.

(** C2: the parity test comes before the pivot is looked at: both functions
    raise the "uneven number of elements" exception exactly when the length
    is even, whatever [idx] is. An even-length signal with an explicit pivot
    is rejected. *)
Theorem C2_parity_test_ignores_pivot :
  (∀ (y : ndarray) idx,
     symmetrizeSignalZero y idx = Raise (Exception msg_uneven)
     ↔ length y mod 2 = 0)
  ∧ (∀ (y : ndarray) idx,
     antiSymmetrizeSignalZero y idx = Raise (Exception msg_uneven)
     ↔ length y mod 2 = 0)
  ∧ symmetrizeSignalZero [1; 2; 3; 4]%float (Some 1) = Raise (Exception msg_uneven)
  ∧ antiSymmetrizeSignalZero [1; 2; 3; 4]%float (Some 1)
    = Raise (Exception msg_uneven).
Proof.
  assert (Hbc : ∀ op (a b : ndarray),
            (s ← broadcast op a b; Ok (np_halve s))
            ≠ Raise (Exception msg_uneven)).
  { intros op a b. unfold broadcast.
    destruct (decide _); [done|].
    destruct a as [|x [|x' a]], b as [|z [|z' b]]; done. }
  split; [|split; [|done]]; intros y idx;
    unfold symmetrizeSignalZero, antiSymmetrizeSignalZero, size;
    rewrite <- not_int_mod2_even;
    destruct (not_int (length y `mod` 2)); try done;
    destruct (center_span y idx) as [i e];
    (split; [intros H; by apply Hbc in H | done]).
Qed.

(** With an explicit pivot [idx >= 3] whose doubled value is inside the
    signal, the operands have the shapes [(idx,)] and [(idx - 1,)]. *)
Lemma explicit_pivot_shapes (y : ndarray) (idx : nat) :
  0 < idx → idx * 2 ≤ length y →
  length (slice y 0 idx) = idx
  ∧ length (reversed (slice y (idx + 1) (min (size y) (idx * 2)))) = idx - 1.
Proof.
  intros Hpos Hin. unfold size.
  rewrite length_reversed, !length_slice. lia.
Qed.

Lemma explicit_pivot_mismatch (y : ndarray) (idx : nat) :
  length y mod 2 = 1 → 3 ≤ idx → idx * 2 ≤ length y →
  symmetrizeSignalZero y (Some idx) = Raise ValueError
  ∧ antiSymmetrizeSignalZero y (Some idx) = Raise ValueError.
Proof.
  intros Hodd Hidx Hin.
  destruct (explicit_pivot_shapes y idx) as [Ha Hb]; [lia..|].
  rewrite symmetrizeSignalZero_odd, antiSymmetrizeSignalZero_odd by done.
  rewrite center_span_pos by lia.
  unfold np_add, np_sub.
  rewrite !broadcast_mismatch by (rewrite ?Ha, ?Hb; lia).
  done.
Qed.

(** C3: with an explicit pivot [idx >= 1] the span ends at [min(N, 2*idx)],
    so the mirrored slice [y[idx+1:idx_end]] is one sample short of
    [y[0:idx]]. On seven samples and the centre [idx = 3] the shapes [(3,)]
    and [(2,)] do not broadcast and numpy raises, where the implicit path
    with the same pivot returns three samples; on three samples and
    [idx = 1] the shape [(1,)] broadcasts against [(0,)] to an empty
    result. *)
Theorem C3_explicit_pivot_is_one_short :
  let y7 := [1; 2; 3; 4; 5; 6; 7]%float in
  center_span y7 (Some 3) = (3, 6)
  ∧ slice y7 0 3 = [1; 2; 3]%float
  ∧ reversed (slice y7 4 6) = [6; 5]%float
  ∧ symmetrizeSignalZero y7 (Some 3) = Raise ValueError
  ∧ antiSymmetrizeSignalZero y7 (Some 3) = Raise ValueError
  ∧ symmetrizeSignalZero y7 None = Ok [4; 4; 4]%float
  ∧ symmetrizeSignalZero [1; 2; 3]%float (Some 1) = Ok []
  ∧ antiSymmetrizeSignalZero [1; 2; 3]%float (Some 1) = Ok [].
Proof. repeat split. Qed.

Lemma slice_ext {A} (y y' : list A) a b :
  (∀ n, a ≤ n < b → y' !! n = y !! n) → slice y' a b = slice y a b.
Proof.
  intros H. unfold slice. apply list_eq. intros i.
  destruct (decide (i < b - a)).
  - rewrite !lookup_take_lt, !lookup_drop by done. apply H. lia.
  - by rewrite !lookup_take_ge by lia.
Qed.

(** C10: without an explicit pivot the sample at the pivot [N/2] is in
    neither slice: two odd-length signals that agree at every other index
    give the same symmetrized and the same antisymmetrized signal. *)
Theorem C10_pivot_sample_is_ignored (y y' : ndarray) :
  length y mod 2 = 1 →
  length y' = length y →
  (∀ n, n ≠ length y / 2 → y' !! n = y !! n) →
  symmetrizeSignalZero y' None = symmetrizeSignalZero y None
  ∧ antiSymmetrizeSignalZero y' None = antiSymmetrizeSignalZero y None.
Proof.
  intros Hodd Hlen Hagree.
  assert (Hodd' : length y' mod 2 = 1) by by rewrite Hlen.
  rewrite !symmetrizeSignalZero_odd, !antiSymmetrizeSignalZero_odd by done.
  rewrite !center_span_None. unfold size. rewrite Hlen.
  assert (Hl : slice y' 0 (length y / 2) = slice y 0 (length y / 2)).
  { apply slice_ext. intros n Hn. apply Hagree. lia. }
  assert (Hr : slice y' (length y / 2 + 1) (length y)
               = slice y (length y / 2 + 1) (length y)).
  { apply slice_ext. intros n Hn. apply Hagree. lia. }
  by rewrite Hl, Hr.
Qed.

Lemma C10_pivot_sample_is_ignored_witness :
  symmetrizeSignalZero [1; 9; 3]%float None = symmetrizeSignalZero [1; 2; 3]%float None
  ∧ antiSymmetrizeSignalZero [1; 9; 3]%float None
    = antiSymmetrizeSignalZero [1; 2; 3]%float None.
Proof.
  apply (C10_pivot_sample_is_ignored [1; 2; 3]%float [1; 9; 3]%float).
  - reflexivity.
  - reflexivity.
  - intros [|[|[|n]]] Hn; simpl in *; [reflexivity | lia | reflexivity | reflexivity].
Defined.

(** ** Symmetrization by a shift *)

Lemma getitem_Some (y : ndarray) i v : y !! i = Some v → getitem y i = Ok v.
Proof. intros H. unfold getitem. by rewrite H. Qed.

Lemma getitem_Ok_lt (y : ndarray) i v : getitem y i = Ok v → i < length y.
Proof.
  unfold getitem. destruct (y !! i) eqn:H; [|done].
  intros _. by apply lookup_lt_Some in H.
Qed.

Lemma getitem_Raise (y : ndarray) i e : getitem y i = Raise e → e = IndexError.
Proof. unfold getitem. destruct (y !! i); congruence. Qed.

Lemma setitem_lt (s : ndarray) i v :
  i < length s → setitem s i v = Ok (<[i := v]> s).
Proof. intros H. unfold setitem. by rewrite decide_True. Qed.

Lemma setitem_Raise (s : ndarray) i v e : setitem s i v = Raise e → e = IndexError.
Proof. unfold setitem. destruct (decide _); congruence. Qed.

(** The loop of [symmetrizeSignal] ([op] is [+]) and of
    [antiSymmetrizeSignal] ([op] is [-]): when every [n + step] stays inside
    [y] it fills the positions [start .. start + count - 1] of [s]. *)
Lemma for_range_shift_ok op (y : ndarray) step :
  ∀ count start (s : ndarray),
    start + count ≤ length s →
    (∀ n, start ≤ n < start + count → n + step < length y) →
    ∃ s', for_range
            (λ idx s, a ← getitem y idx; b ← getitem y (idx + step);
                      setitem s idx (halve (op a b)))
            start count s = Ok s'
          ∧ length s' = length s
          ∧ (∀ n, n < start → s' !! n = s !! n)
          ∧ (∀ n, start ≤ n < start + count →
               ∃ u v, y !! n = Some u ∧ y !! (n + step) = Some v
                      ∧ s' !! n = Some (halve (op u v))).
Proof.
  induction count as [|c IH]; intros start s Hs Hy.
  - exists s. repeat split; try done. intros n Hn. lia.
  - destruct (lookup_lt_is_Some_2 y start) as [u Hu];
      [specialize (Hy start); lia|].
    destruct (lookup_lt_is_Some_2 y (start + step)) as [v Hv];
      [specialize (Hy start); lia|].
    destruct (IH (S start) (<[start := halve (op u v)]> s))
      as (s' & Hrun & Hlen & Hbefore & Hin).
    { rewrite length_insert. lia. }
    { intros n Hn. apply Hy. lia. }
    exists s'. split; [|split; [|split]].
    + simpl. rewrite (getitem_Some _ _ _ Hu), (getitem_Some _ _ _ Hv). simpl.
      rewrite setitem_lt by lia. exact Hrun.
    + by rewrite Hlen, length_insert.
    + intros n Hn. rewrite Hbefore by lia.
      by rewrite list_lookup_insert_ne by lia.
    + intros n Hn. destruct (decide (n = start)) as [->|Hne].
      * exists u, v. repeat split; try done.
        rewrite Hbefore by lia. apply list_lookup_insert_eq. lia.
      * apply Hin. lia.
Qed.

(** A loop that returns has read every [y[n + step]] inside the array. *)
Lemma for_range_shift_inv op (y : ndarray) step :
  ∀ count start (s s' : ndarray),
    for_range
      (λ idx s, a ← getitem y idx; b ← getitem y (idx + step);
                setitem s idx (halve (op a b)))
      start count s = Ok s' →
    ∀ n, start ≤ n < start + count → n + step < length y.
Proof.
  induction count as [|c IH]; intros start s s' Hrun n Hn; [lia|].
  simpl in Hrun.
  destruct (getitem y start) as [u|e] eqn:Hu; [|done]. simpl in Hrun.
  destruct (getitem y (start + step)) as [v|e] eqn:Hv; [|done]. simpl in Hrun.
  destruct (setitem s start _) as [s1|e] eqn:Hset; [|done]. simpl in Hrun.
  destruct (decide (n = start)) as [->|Hne].
  - by apply getitem_Ok_lt in Hv.
  - apply (IH _ _ _ Hrun). lia.
Qed.

(** The only exception the loop raises is numpy's [IndexError]. *)
Lemma for_range_shift_exn op (y : ndarray) step :
  ∀ count start (s : ndarray) e,
    for_range
      (λ idx s, a ← getitem y idx; b ← getitem y (idx + step);
                setitem s idx (halve (op a b)))
      start count s = Raise e →
    e = IndexError.
Proof.
  induction count as [|c IH]; intros start s e Hrun; [done|].
  simpl in Hrun.
  destruct (getitem y start) as [u|e'] eqn:Hu; simpl in Hrun;
    [|apply getitem_Raise in Hu; congruence].
  destruct (getitem y (start + step)) as [v|e'] eqn:Hv; simpl in Hrun;
    [|apply getitem_Raise in Hv; congruence].
  destruct (setitem s start _) as [s1|e'] eqn:Hset; simpl in Hrun;
    [|apply setitem_Raise in Hset; congruence].
  by apply IH in Hrun.
Qed.

Lemma length_zeros n : length (zeros n) = n.
Proof. apply length_replicate. Qed.

Lemma symmetrizeSignal_parity (y : ndarray) step :
  length y mod 2 = 1 → symmetrizeSignal y step = Raise (Exception msg_even).
Proof.
  intros H. unfold symmetrizeSignal, size.
  apply not_int_mod2_odd in H. by rewrite H.
Qed.

Lemma antiSymmetrizeSignal_parity (y : ndarray) step :
  length y mod 2 = 1 → antiSymmetrizeSignal y step = Raise (Exception msg_even).
Proof.
  intros H. unfold antiSymmetrizeSignal, size.
  apply not_int_mod2_odd in H. by rewrite H.
Qed.

Lemma symmetrizeSignal_even (y : ndarray) step :
  length y mod 2 = 0 →
  symmetrizeSignal y step =
    for_range (λ idx s, a ← getitem y idx; b ← getitem y (idx + step);
                        setitem s idx (halve (PrimFloat.add a b)))
      0 (length y / 2) (zeros (length y / 2)).
Proof.
  intros H. unfold symmetrizeSignal, size.
  apply not_int_mod2_even in H. by rewrite H.
Qed.

Lemma antiSymmetrizeSignal_even (y : ndarray) step :
  length y mod 2 = 0 →
  antiSymmetrizeSignal y step =
    for_range (λ idx s, a ← getitem y idx; b ← getitem y (idx + step);
                        setitem s idx (halve (PrimFloat.sub a b)))
      0 (length y / 2) (zeros (length y / 2)).
Proof.
  intros H. unfold antiSymmetrizeSignal, size.
  apply not_int_mod2_even in H. by rewrite H.
Qed.

(** The loop over a whole even-length signal. *)
Lemma shift_loop_ok op (y : ndarray) step :
  (∀ n, n < length y / 2 → n + step < length y) →
  ∃ s, for_range (λ idx s, a ← getitem y idx; b ← getitem y (idx + step);
                           setitem s idx (halve (op a b)))
         0 (length y / 2) (zeros (length y / 2)) = Ok s
       ∧ length s = length y / 2
       ∧ ∀ n, n < length y / 2 →
           ∃ u v, y !! n = Some u ∧ y !! (n + step) = Some v
                  ∧ s !! n = Some (halve (op u v)).
Proof.
  intros Hin.
  destruct (for_range_shift_ok op y step (length y / 2) 0 (zeros (length y / 2)))
    as (s & Hrun & Hlen & _ & Hel).
  - rewrite length_zeros. lia.
  - intros n Hn. apply Hin. lia.
  - exists s. split; [done|]. split; [by rewrite Hlen, length_zeros|].
    intros n Hn. apply Hel. lia.
Qed.

Lemma shift_loop_raises op (y : ndarray) step n :
  n < length y / 2 → length y ≤ n + step →
  for_range (λ idx s, a ← getitem y idx; b ← getitem y (idx + step);
                      setitem s idx (halve (op a b)))
    0 (length y / 2) (zeros (length y / 2)) = Raise IndexError.
Proof.
  intros Hn Hout.
  destruct (for_range _ _ _ _) as [s|e] eqn:Hrun.
  - pose proof (for_range_shift_inv _ _ _ _ _ _ _ Hrun n). lia.
  - by apply for_range_shift_exn in Hrun as ->.
Qed.

(** C6: on an even-length signal and a step for which every [n + step]
    with [n < N/2] is an index of [y], [symmetrizeSignal] returns [N/2]
    samples, the [n]-th being [(y[n] + y[n+step]) / 2], and
    [antiSymmetrizeSignal] returns [N/2] samples, the [n]-th being
    [(y[n] - y[n+step]) / 2]. On [[0,2,4,6]] and step 2 they return
    [[2.0, 4.0]] and [[-2.0, -2.0]]. *)
Theorem C6_shift_elements :
  (∀ (y : ndarray) (step : nat),
     length y mod 2 = 0 →
     0 < step < length y →
     (∀ n, n < length y / 2 → n + step < length y) →
     (∃ s, symmetrizeSignal y step = Ok s
           ∧ length s = length y / 2
           ∧ ∀ n, n < length y / 2 →
               ∃ u v, y !! n = Some u ∧ y !! (n + step) = Some v
                      ∧ s !! n = Some (PrimFloat.div (PrimFloat.add u v) 2))
     ∧ (∃ s, antiSymmetrizeSignal y step = Ok s
           ∧ length s = length y / 2
           ∧ ∀ n, n < length y / 2 →
               ∃ u v, y !! n = Some u ∧ y !! (n + step) = Some v
                      ∧ s !! n = Some (PrimFloat.div (PrimFloat.sub u v) 2)))
  ∧ symmetrizeSignal [0; 2; 4; 6]%float 2 = Ok [2; 4]%float
  ∧ antiSymmetrizeSignal [0; 2; 4; 6]%float 2 = Ok [-2; -2]%float.
Proof.
  split; [|done].
  intros y step Heven _ Hin. split.
  - rewrite symmetrizeSignal_even by done. by apply shift_loop_ok.
  - rewrite antiSymmetrizeSignal_even by done. by apply shift_loop_ok.
Qed.

Lemma C6_shift_elements_witness :
  ∃ s, symmetrizeSignal [0; 2; 4; 6]%float 2 = Ok s ∧ length s = 2.
Proof.
  destruct (proj1 C6_shift_elements [0; 2; 4; 6]%float 2) as [(s & Hs & Hl & _) _].
  - reflexivity.
  - simpl. lia.
  - simpl. intros n Hn. lia.
  - exists s. split; [exact Hs | exact Hl].
Defined.

(** ** Up and down sweeps *)

Lemma for_range_shift_length op (y : ndarray) step count (s0 s : ndarray) :
  for_range (λ idx s, a ← getitem y idx; b ← getitem y (idx + step);
                      setitem s idx (halve (op a b)))
    0 count s0 = Ok s →
  count ≤ length s0 → length s = length s0.
Proof.
  intros Hrun Hc.
  pose proof (for_range_shift_inv _ _ _ _ _ _ _ Hrun) as Hin.
  destruct (for_range_shift_ok op y step count 0 s0) as (s' & Hrun' & Hlen & _);
    [lia | done |].
  congruence.
Qed.

Lemma symmetrizeSignal_Ok_length (y s : ndarray) step :
  symmetrizeSignal y step = Ok s → length s = length y / 2.
Proof.
  intros H. destruct (Nat.mod_bound_pos (length y) 2) as [_ Hlt]; [lia..|].
  destruct (decide (length y mod 2 = 0)) as [He|Ho].
  - rewrite symmetrizeSignal_even in H by done.
    apply for_range_shift_length in H; rewrite length_zeros in *; lia.
  - rewrite symmetrizeSignal_parity in H by lia. done.
Qed.

Lemma antiSymmetrizeSignal_Ok_length (y s : ndarray) step :
  antiSymmetrizeSignal y step = Ok s → length s = length y / 2.
Proof.
  intros H. destruct (Nat.mod_bound_pos (length y) 2) as [_ Hlt]; [lia..|].
  destruct (decide (length y mod 2 = 0)) as [He|Ho].
  - rewrite antiSymmetrizeSignal_even in H by done.
    apply for_range_shift_length in H; rewrite length_zeros in *; lia.
  - rewrite antiSymmetrizeSignal_parity in H by lia. done.
Qed.

Section quadrants.
Variable y : ndarray.
Hypothesis Hdiv : length y mod 4 = 0.

Let q := length y / 4.

Lemma length_quarters : length y = 4 * q.
Proof. unfold q. pose proof (Nat.div_mod_eq (length y) 4). lia. Qed.

Lemma two_quarters : 2 * length y / 4 = 2 * q.
Proof.
  rewrite length_quarters. replace (2 * (4 * q)) with (2 * q * 4) by lia.
  by rewrite Nat.div_mul.
Qed.

Lemma three_quarters : 3 * length y / 4 = 3 * q.
Proof.
  rewrite length_quarters. replace (3 * (4 * q)) with (3 * q * 4) by lia.
  by rewrite Nat.div_mul.
Qed.

Lemma length_quadrant k : k < 4 → length (quadrant y k) = length y / 4.
Proof.
  intros Hk. unfold quadrant. fold q.
  rewrite length_take, length_drop, length_quarters. nia.
Qed.

Lemma lower_half_quadrants : lower_half y = quadrant y 0 ++ quadrant y 2.
Proof.
  unfold lower_half, hstack, slice, quadrant, size.
  rewrite two_quarters, three_quarters. fold q.
  do 2 f_equal; lia.
Qed.

Lemma upper_half_quadrants : upper_half y = quadrant y 1 ++ quadrant y 3.
Proof.
  unfold upper_half, hstack, slice, slice_from, quadrant, size.
  rewrite two_quarters, three_quarters. fold q.
  f_equal.
  - do 2 f_equal; lia.
  - symmetry. apply take_ge. rewrite length_drop, length_quarters. lia.
Qed.

Lemma quadrants_cover :
  y = quadrant y 0 ++ quadrant y 1 ++ quadrant y 2 ++ quadrant y 3.
Proof.
  unfold quadrant. fold q.
  rewrite (take_ge (drop (3 * q) y))
    by (rewrite length_drop, length_quarters; lia).
  replace (0 * q) with 0 by lia. replace (1 * q) with q by lia.
  rewrite drop_0.
  rewrite <- (take_drop q y) at 1. f_equal.
  rewrite <- (take_drop q (drop q y)) at 1. f_equal.
  rewrite drop_drop. replace (q + q) with (2 * q) by lia.
  rewrite <- (take_drop q (drop (2 * q) y)) at 1. f_equal.
  rewrite drop_drop. f_equal. lia.
Qed.

Lemma length_lower_half : length (lower_half y) = length y / 2.
Proof.
  rewrite lower_half_quadrants, length_app, !length_quadrant by lia.
  fold q. rewrite length_quarters.
  replace (4 * q) with (2 * q * 2) by lia. rewrite Nat.div_mul by lia. lia.
Qed.

Lemma length_upper_half : length (upper_half y) = length y / 2.
Proof.
  rewrite upper_half_quadrants, length_app, !length_quadrant by lia.
  fold q. rewrite length_quarters.
  replace (4 * q) with (2 * q * 2) by lia. rewrite Nat.div_mul by lia. lia.
Qed.

Lemma half_even : (length y / 2) mod 2 = 0 ∧ length y / 2 / 2 = length y / 4.
Proof.
  fold q. rewrite length_quarters.
  replace (4 * q) with (2 * q * 2) by lia. rewrite Nat.div_mul by lia.
  replace (2 * q) with (q * 2) by lia.
  by rewrite Nat.Div0.mod_mul, Nat.div_mul by lia.
Qed.

End quadrants.

(** On the two halves of a signal of length [N = 4 q], every read of the
    shift loop stays inside the half exactly when [q = 0] or [step <= q]. *)
Lemma shift_half_ok op (h : ndarray) step :
  (length h / 2) * 2 = length h →
  length h = 0 ∨ step ≤ length h / 2 →
  ∃ s, for_range (λ idx s, a ← getitem h idx; b ← getitem h (idx + step);
                           setitem s idx (halve (op a b)))
         0 (length h / 2) (zeros (length h / 2)) = Ok s
       ∧ length s = length h / 2.
Proof.
  intros Hh Hstep.
  destruct (shift_loop_ok op h step) as (s & Hs & Hl & _); [|by exists s].
  intros n Hn. destruct Hstep as [H0|Hle]; [|lia].
  rewrite H0 in Hn. simpl in Hn. lia.
Qed.

Lemma shift_half_raises op (h : ndarray) step :
  (length h / 2) * 2 = length h →
  0 < length h → length h / 2 < step →
  for_range (λ idx s, a ← getitem h idx; b ← getitem h (idx + step);
                      setitem s idx (halve (op a b)))
    0 (length h / 2) (zeros (length h / 2)) = Raise IndexError.
Proof.
  intros Hh Hpos Hstep.
  apply (shift_loop_raises op h step (length h / 2 - 1)); lia.
Qed.

(** C7: when [N] is a multiple of 4 the slices of the code are the four
    quadrants of length [N/4]; [yL] is [Q1 ++ Q3] and [yU] is [Q2 ++ Q4];
    the result is that of the shift symmetrizer on [yL] followed by that on
    [yU], an exception of either call ending the whole call; a returned
    result has length [N/2], and the call returns whenever [step <= N/4].
    On [range(8)] and step 2 the result is [[2.0, 3.0, 4.0, 5.0]]. *)
Theorem C7_up_down_quadrants :
  (∀ (y : ndarray) (step : nat),
     length y mod 4 = 0 →
     y = quadrant y 0 ++ quadrant y 1 ++ quadrant y 2 ++ quadrant y 3
     ∧ (∀ k, k < 4 → length (quadrant y k) = length y / 4)
     ∧ lower_half y = quadrant y 0 ++ quadrant y 2
     ∧ upper_half y = quadrant y 1 ++ quadrant y 3
     ∧ symmetrizeSignalUpDown y step
       = (sL ← symmetrizeSignal (quadrant y 0 ++ quadrant y 2) step;
          sU ← symmetrizeSignal (quadrant y 1 ++ quadrant y 3) step;
          Ok (sL ++ sU))
     ∧ antiSymmetrizeSignalUpDown y step
       = (sL ← antiSymmetrizeSignal (quadrant y 0 ++ quadrant y 2) step;
          sU ← antiSymmetrizeSignal (quadrant y 1 ++ quadrant y 3) step;
          Ok (sL ++ sU))
     ∧ (∀ s, symmetrizeSignalUpDown y step = Ok s → length s = length y / 2)
     ∧ (∀ s, antiSymmetrizeSignalUpDown y step = Ok s → length s = length y / 2)
     ∧ (step ≤ length y / 4 →
        (∃ s, symmetrizeSignalUpDown y step = Ok s)
        ∧ (∃ s, antiSymmetrizeSignalUpDown y step = Ok s)))
  ∧ symmetrizeSignalUpDown [0; 1; 2; 3; 4; 5; 6; 7]%float 2
    = Ok [2; 3; 4; 5]%float.
Proof.
  split; [|done].
  intros y step Hdiv.
  pose proof (lower_half_quadrants y Hdiv) as HL.
  pose proof (upper_half_quadrants y Hdiv) as HU.
  pose proof (length_lower_half y Hdiv) as HlL.
  pose proof (length_upper_half y Hdiv) as HlU.
  destruct (half_even y Hdiv) as [Hev Hq].
  split; [by apply quadrants_cover|].
  split; [intros k Hk; by apply length_quadrant|].
  split; [done|]. split; [done|].
  split; [unfold symmetrizeSignalUpDown, hstack; by rewrite HL, HU|].
  split; [unfold antiSymmetrizeSignalUpDown, hstack; by rewrite HL, HU|].
  assert (Hlen : length y / 2 = length y / 4 + length y / 4)
    by (pose proof (even_halves _ Hev); lia).
  split; [|split].
  - intros s. unfold symmetrizeSignalUpDown.
    destruct (symmetrizeSignal (lower_half y) step) as [sL|] eqn:HsL; [|done].
    destruct (symmetrizeSignal (upper_half y) step) as [sU|] eqn:HsU; [|done].
    intros H. simpl in H. injection H as <-.
    apply symmetrizeSignal_Ok_length in HsL, HsU.
    unfold hstack. rewrite length_app, HsL, HsU, HlL, HlU, Hq. lia.
  - intros s. unfold antiSymmetrizeSignalUpDown.
    destruct (antiSymmetrizeSignal (lower_half y) step) as [sL|] eqn:HsL; [|done].
    destruct (antiSymmetrizeSignal (upper_half y) step) as [sU|] eqn:HsU; [|done].
    intros H. simpl in H. injection H as <-.
    apply antiSymmetrizeSignal_Ok_length in HsL, HsU.
    unfold hstack. rewrite length_app, HsL, HsU, HlL, HlU, Hq. lia.
  - intros Hstep.
    assert (HhL : length (lower_half y) / 2 * 2 = length (lower_half y))
      by (rewrite HlL; pose proof (even_halves _ Hev); lia).
    assert (HhU : length (upper_half y) / 2 * 2 = length (upper_half y))
      by (rewrite HlU; pose proof (even_halves _ Hev); lia).
    split.
    + unfold symmetrizeSignalUpDown.
      rewrite !symmetrizeSignal_even by (by rewrite ?HlL, ?HlU).
      destruct (shift_half_ok PrimFloat.add (lower_half y) step HhL)
        as (sL & -> & _); [rewrite HlL, Hq; by right|].
      destruct (shift_half_ok PrimFloat.add (upper_half y) step HhU)
        as (sU & -> & _); [rewrite HlU, Hq; by right|].
      by eexists.
    + unfold antiSymmetrizeSignalUpDown.
      rewrite !antiSymmetrizeSignal_even by (by rewrite ?HlL, ?HlU).
      destruct (shift_half_ok PrimFloat.sub (lower_half y) step HhL)
        as (sL & -> & _); [rewrite HlL, Hq; by right|].
      destruct (shift_half_ok PrimFloat.sub (upper_half y) step HhU)
        as (sU & -> & _); [rewrite HlU, Hq; by right|].
      by eexists.
Qed.

Lemma C7_up_down_quadrants_witness :
  lower_half [0; 1; 2; 3; 4; 5; 6; 7]%float = [0; 1; 4; 5]%float
  ∧ upper_half [0; 1; 2; 3; 4; 5; 6; 7]%float = [2; 3; 6; 7]%float.
Proof.
  destruct (proj1 C7_up_down_quadrants [0; 1; 2; 3; 4; 5; 6; 7]%float 2)
    as (_ & _ & HL & HU & _).
  - reflexivity.
  - split; [exact HL | exact HU].
Defined.

(** C8 (amended): when [N] is a multiple of 4 the two halves have the even
    length [N/2 = 2 * (N/4)], whatever the parity of [N/4], so the parity
    test of the shift symmetrizers never fires. The call returns [N/2]
    samples when [N = 0] or [step <= N/4], and otherwise numpy's
    [IndexError] ends it; [N] need not be a multiple of 8. *)
Theorem C8_up_down_never_fails_parity (y : ndarray) (step : nat) :
  length y mod 4 = 0 →
  (∀ msg, symmetrizeSignalUpDown y step ≠ Raise (Exception msg))
  ∧ (∀ msg, antiSymmetrizeSignalUpDown y step ≠ Raise (Exception msg))
  ∧ (length y = 0 ∨ step ≤ length y / 4 →
     (∃ s, symmetrizeSignalUpDown y step = Ok s ∧ length s = length y / 2)
     ∧ (∃ s, antiSymmetrizeSignalUpDown y step = Ok s ∧ length s = length y / 2))
  ∧ (0 < length y → length y / 4 < step →
     symmetrizeSignalUpDown y step = Raise IndexError
     ∧ antiSymmetrizeSignalUpDown y step = Raise IndexError).
Proof.
  intros Hdiv.
  pose proof (length_lower_half y Hdiv) as HlL.
  pose proof (length_upper_half y Hdiv) as HlU.
  destruct (half_even y Hdiv) as [Hev Hq].
  pose proof (even_halves _ Hev) as Hhalf.
  pose proof (length_quarters y Hdiv) as HN.
  assert (HhL : length (lower_half y) / 2 * 2 = length (lower_half y))
    by (rewrite HlL; lia).
  assert (HhU : length (upper_half y) / 2 * 2 = length (upper_half y))
    by (rewrite HlU; lia).
  assert (Hok : length y = 0 ∨ step ≤ length y / 4 →
     (∃ s, symmetrizeSignalUpDown y step = Ok s ∧ length s = length y / 2)
     ∧ (∃ s, antiSymmetrizeSignalUpDown y step = Ok s ∧ length s = length y / 2)).
  { intros Hstep.
    assert (HstepL : length (lower_half y) = 0 ∨ step ≤ length (lower_half y) / 2)
      by (rewrite HlL, Hq; lia).
    assert (HstepU : length (upper_half y) = 0 ∨ step ≤ length (upper_half y) / 2)
      by (rewrite HlU, Hq; lia).
    split.
    - unfold symmetrizeSignalUpDown.
      rewrite !symmetrizeSignal_even by (by rewrite ?HlL, ?HlU).
      destruct (shift_half_ok PrimFloat.add _ step HhL HstepL) as (sL & -> & HsL).
      destruct (shift_half_ok PrimFloat.add _ step HhU HstepU) as (sU & -> & HsU).
      eexists. split; [reflexivity|].
      unfold hstack. rewrite length_app, HsL, HsU, HlL, HlU, Hq. lia.
    - unfold antiSymmetrizeSignalUpDown.
      rewrite !antiSymmetrizeSignal_even by (by rewrite ?HlL, ?HlU).
      destruct (shift_half_ok PrimFloat.sub _ step HhL HstepL) as (sL & -> & HsL).
      destruct (shift_half_ok PrimFloat.sub _ step HhU HstepU) as (sU & -> & HsU).
      eexists. split; [reflexivity|].
      unfold hstack. rewrite length_app, HsL, HsU, HlL, HlU, Hq. lia. }
  assert (Hbad : 0 < length y → length y / 4 < step →
     symmetrizeSignalUpDown y step = Raise IndexError
     ∧ antiSymmetrizeSignalUpDown y step = Raise IndexError).
  { intros Hpos Hstep. split.
    - unfold symmetrizeSignalUpDown.
      rewrite !symmetrizeSignal_even by (by rewrite ?HlL, ?HlU).
      by rewrite (shift_half_raises PrimFloat.add (lower_half y))
        by (rewrite ?HlL, ?Hq; lia).
    - unfold antiSymmetrizeSignalUpDown.
      rewrite !antiSymmetrizeSignal_even by (by rewrite ?HlL, ?HlU).
      by rewrite (shift_half_raises PrimFloat.sub (lower_half y))
        by (rewrite ?HlL, ?Hq; lia). }
  split; [|split; [|done]].
  - intros msg. destruct (decide (length y = 0 ∨ step ≤ length y / 4)) as [H|H].
    + destruct (Hok H) as [(s & -> & _) _]. done.
    + destruct Hbad as [-> _]; [lia..|done].
  - intros msg. destruct (decide (length y = 0 ∨ step ≤ length y / 4)) as [H|H].
    + destruct (Hok H) as [_ (s & -> & _)]. done.
    + destruct Hbad as [_ ->]; [lia..|done].
Qed.

Lemma C8_up_down_never_fails_parity_witness :
  ∃ s, symmetrizeSignalUpDown [1; 2; 3; 4]%float 1 = Ok s ∧ length s = 2.
Proof.
  destruct (C8_up_down_never_fails_parity [1; 2; 3; 4]%float 1)
    as (_ & _ & Hok & _).
  - reflexivity.
  - destruct Hok as [Hs _].
    + right. simpl. lia.
    + exact Hs.
Defined.

(** C8 (as stated) fails: on four samples [N/4 = 1] is odd and [N] is not a
    multiple of 8, yet the call returns. *)
Lemma C8_up_down_counterexample :
  let y := [1; 2; 3; 4]%float in
  ¬ ((∃ msg, symmetrizeSignalUpDown y 1 = Raise (Exception msg))
     ↔ Nat.odd (length y / 4) = true)
  ∧ ¬ ((∃ s, symmetrizeSignalUpDown y 1 = Ok s) ↔ length y mod 8 = 0).
Proof.
  split.
  - intros [_ H]. destruct H as [msg Hmsg]; [reflexivity|]. discriminate Hmsg.
  - intros [H _]. discriminate H. by eexists.
Qed.

(** ** Deinterleaving *)

Section deinterleave.
Context {A : Type}.
Implicit Types x : list A.

Lemma stride2_cons a x : stride2 (a :: x) = a :: stride2 (drop 1 x).
Proof. by destruct x. Qed.

Lemma lookup_stride2 n : ∀ x, stride2 x !! n = x !! (2 * n).
Proof.
  induction n as [|n IH]; intros [|a [|b x]]; try done.
  replace (2 * S n) with (S (S (2 * n))) by lia.
  simpl. apply IH.
Qed.

Lemma interleave_stride2_bounded n :
  ∀ x, length x ≤ n → interleave (stride2 x) (stride2 (drop 1 x)) = x.
Proof.
  induction n as [|n IH]; intros [|a [|b x]] Hlen; simpl in Hlen; try done; try lia.
  rewrite stride2_cons. simpl drop at 2. rewrite stride2_cons.
  simpl. do 2 f_equal. apply IH. lia.
Qed.

Lemma interleave_stride2 x : interleave (stride2 x) (stride2 (drop 1 x)) = x.
Proof. by apply (interleave_stride2_bounded (length x)). Qed.

End deinterleave.

(** C9: [separateAlternatingSignal] returns the samples of even index and
    the samples of odd index, and interleaving the two by alternation gives
    the input back, for every length; on [[]] it returns two empty sequences
    and on one sample the sample and an empty sequence. *)
Theorem C9_separate_alternating_invertible {A : Type} (x : list A) :
  interleave (separateAlternatingSignal x).1 (separateAlternatingSignal x).2 = x
  ∧ (∀ n, (separateAlternatingSignal x).1 !! n = x !! (2 * n))
  ∧ (∀ n, (separateAlternatingSignal x).2 !! n = x !! (2 * n + 1))
  ∧ separateAlternatingSignal (@nil A) = ([], [])
  ∧ (∀ a : A, separateAlternatingSignal [a] = ([a], [])).
Proof.
  unfold separateAlternatingSignal, slice_step2. simpl fst. simpl snd.
  rewrite drop_0. split; [apply interleave_stride2|].
  split; [intros n; apply lookup_stride2|].
  split; [|done].
  intros n. rewrite lookup_stride2, lookup_drop. f_equal. lia.
Qed.

(** ** Outcomes of the shift symmetrizers *)

Lemma even_half_double (n : nat) : n mod 2 = 0 → n / 2 * 2 = n.
Proof. intros H. pose proof (even_halves n H). lia. Qed.

Lemma shift_outcome_ok op (y : ndarray) step :
  length y mod 2 = 0 → length y = 0 ∨ step ≤ length y / 2 →
  ∃ s, for_range (λ idx s, a ← getitem y idx; b ← getitem y (idx + step);
                           setitem s idx (halve (op a b)))
         0 (length y / 2) (zeros (length y / 2)) = Ok s
       ∧ length s = length y / 2.
Proof. intros He Hs. apply shift_half_ok; [by apply even_half_double | done]. Qed.

Lemma shift_outcome_index op (y : ndarray) step :
  length y mod 2 = 0 → 0 < length y → length y / 2 < step →
  for_range (λ idx s, a ← getitem y idx; b ← getitem y (idx + step);
                      setitem s idx (halve (op a b)))
    0 (length y / 2) (zeros (length y / 2)) = Raise IndexError.
Proof. intros He Hp Hs. apply shift_half_raises; [by apply even_half_double | done..]. Qed.

(** X1: the outcome of [symmetrizeSignal] and of [antiSymmetrizeSignal] is
    decided by the length and the step alone. An odd length raises the
    "even number of elements" exception; an even length returns [N/2]
    samples when [N = 0] or [step <= N/2]; any larger step on a non-empty
    even-length signal ends in numpy's [IndexError], with no partial
    result. *)
Theorem X1_shift_outcome (y : ndarray) (step : nat) :
  (length y mod 2 = 1 →
     symmetrizeSignal y step = Raise (Exception msg_even)
     ∧ antiSymmetrizeSignal y step = Raise (Exception msg_even))
  ∧ (length y mod 2 = 0 → length y = 0 ∨ step ≤ length y / 2 →
     (∃ s, symmetrizeSignal y step = Ok s ∧ length s = length y / 2)
     ∧ (∃ s, antiSymmetrizeSignal y step = Ok s ∧ length s = length y / 2))
  ∧ (length y mod 2 = 0 → 0 < length y → length y / 2 < step →
     symmetrizeSignal y step = Raise IndexError
     ∧ antiSymmetrizeSignal y step = Raise IndexError).
Proof.
  split; [|split].
  - intros Ho. by rewrite symmetrizeSignal_parity, antiSymmetrizeSignal_parity.
  - intros He Hs. rewrite symmetrizeSignal_even, antiSymmetrizeSignal_even by done.
    split; by apply shift_outcome_ok.
  - intros He Hp Hs.
    rewrite symmetrizeSignal_even, antiSymmetrizeSignal_even by done.
    split; by apply shift_outcome_index.
Qed.

Lemma X1_shift_outcome_witness :
  symmetrizeSignal [1; 2; 3]%float 1 = Raise (Exception msg_even)
  ∧ (∃ s, symmetrizeSignal [1; 2; 3; 4]%float 2 = Ok s ∧ length s = 2)
  ∧ symmetrizeSignal [1; 2; 3; 4]%float 3 = Raise IndexError.
Proof.
  split; [|split].
  - apply (proj1 (X1_shift_outcome [1; 2; 3]%float 1)). reflexivity.
  - apply (proj1 (proj2 (X1_shift_outcome [1; 2; 3; 4]%float 2))).
    + reflexivity.
    + right. simpl. lia.
  - apply (proj2 (proj2 (X1_shift_outcome [1; 2; 3; 4]%float 3))).
    + reflexivity.
    + simpl. lia.
    + simpl. lia.
Defined.

(** ** The explicit pivot *)

Lemma broadcast_left_scalar op x (b : ndarray) :
  length b ≠ 1 → broadcast op [x] b = Ok (op x <$> b).
Proof. intros H. unfold broadcast. rewrite decide_False; [done|]. simpl. lia. Qed.

Lemma broadcast_right_scalar op (a : ndarray) z :
  length a ≠ 1 → broadcast op a [z] = Ok ((λ v, op v z) <$> a).
Proof.
  intros H. unfold broadcast. rewrite decide_False by done.
  by destruct a as [|x [|x' a]].
Qed.

Lemma singleton_of_lookup {A} (l : list A) v :
  length l = 1 → l !! 0 = Some v → l = [v].
Proof. destruct l as [|w [|w' l]]; simpl; intros; simplify_eq; done. Qed.

Lemma nil_of_length {A} (l : list A) : length l = 0 → l = [].
Proof. by destruct l. Qed.

(** The operands of the explicit-pivot path on an odd-length signal: the
    mirrored slice is shorter than the left one. *)
Lemma explicit_pivot_lengths (y : ndarray) (idx : nat) :
  0 < length y → 0 < idx →
  length (slice y 0 idx) = min idx (length y)
  ∧ length (reversed (slice y (idx + 1) (min (length y) (idx * 2))))
    = min (length y) (idx * 2) - (idx + 1)
  ∧ min (length y) (idx * 2) - (idx + 1) < min idx (length y).
Proof.
  intros HN Hidx. rewrite length_reversed, !length_slice. lia.
Qed.

Lemma explicit_pivot_outcome op (y : ndarray) (idx : nat) :
  length y mod 2 = 1 → 0 < idx →
  let a := slice y 0 idx in
  let b := reversed (slice y (idx + 1) (min (length y) (idx * 2))) in
  (idx = 1 ∨ length y = 1 → broadcast op a b = Ok [])
  ∧ (1 < idx → 1 < length y → min (length y) (idx * 2) = idx + 2 →
     ∃ v s, y !! (idx + 1) = Some v ∧ broadcast op a b = Ok s
            ∧ length s = idx
            ∧ ∀ n, n < idx → ∃ u, y !! n = Some u ∧ s !! n = Some (op u v))
  ∧ (1 < idx → 1 < length y → min (length y) (idx * 2) ≠ idx + 2 →
     broadcast op a b = Raise ValueError).
Proof.
  intros Hodd Hidx a b.
  assert (HN : 0 < length y) by (destruct (length y); [done | lia]).
  destruct (explicit_pivot_lengths y idx HN Hidx) as (Ha & Hb & Hlt).
  fold a in Ha. fold b in Hb.
  split; [|split].
  - intros H1.
    assert (Ha1 : length a = 1) by lia.
    assert (Hb0 : length b = 0) by lia.
    destruct (lookup_lt_is_Some_2 a 0) as [x Hx]; [lia|].
    rewrite (singleton_of_lookup a x Ha1 Hx), (nil_of_length b Hb0).
    by rewrite broadcast_left_scalar.
  - intros H1 HN1 Hend.
    assert (Hb1 : length b = 1) by lia.
    assert (Hai : length a = idx) by lia.
    destruct (lookup_lt_is_Some_2 y (idx + 1)) as [v Hv]; [lia|].
    assert (Hbv : b = [v]).
    { assert (Hsl : length (slice y (idx + 1) (min (length y) (idx * 2))) = 1)
        by (rewrite length_slice; lia).
      apply singleton_of_lookup; [done|]. unfold b.
      rewrite lookup_reversed, Hsl by lia.
      rewrite lookup_slice by lia. by rewrite Nat.sub_diag, Nat.add_0_r. }
    exists v, ((λ u, op u v) <$> a).
    split; [done|]. split; [rewrite Hbv; apply broadcast_right_scalar; lia|].
    split; [by rewrite length_fmap|].
    intros n Hn. destruct (lookup_lt_is_Some_2 y n) as [u Hu]; [lia|].
    exists u. split; [done|].
    rewrite list_lookup_fmap. unfold a. rewrite slice_0, lookup_take_lt by done.
    by rewrite Hu.
  - intros H1 HN1 Hend. apply broadcast_mismatch; lia.
Qed.

(** X2: with an explicit pivot [idx >= 1] on an odd-length signal the
    mirrored slice [y[idx+1:idx_end]] is always shorter than [y[0:idx]], so
    the two are never paired sample by sample. The call returns the empty
    array when [idx = 1] or [N = 1]; it returns [idx] samples, each the
    half sum (half difference) of [y[n]] and the one sample [y[idx+1]],
    when the mirrored slice has exactly one sample
    ([min(N, 2*idx) = idx + 2]); in every other case numpy raises
    [ValueError]. *)
Theorem X2_explicit_pivot_outcome (y : ndarray) (idx : nat) :
  length y mod 2 = 1 → 0 < idx →
  length (slice y (idx + 1) (min (length y) (idx * 2))) < length (slice y 0 idx)
  ∧ (idx = 1 ∨ length y = 1 →
     symmetrizeSignalZero y (Some idx) = Ok []
     ∧ antiSymmetrizeSignalZero y (Some idx) = Ok [])
  ∧ (1 < idx → 1 < length y → min (length y) (idx * 2) = idx + 2 →
     ∃ v s s', y !! (idx + 1) = Some v
       ∧ symmetrizeSignalZero y (Some idx) = Ok s
       ∧ antiSymmetrizeSignalZero y (Some idx) = Ok s'
       ∧ length s = idx ∧ length s' = idx
       ∧ ∀ n, n < idx →
           ∃ u, y !! n = Some u
                ∧ s !! n = Some (PrimFloat.div (PrimFloat.add u v) 2)
                ∧ s' !! n = Some (PrimFloat.div (PrimFloat.sub u v) 2))
  ∧ (1 < idx → 1 < length y → min (length y) (idx * 2) ≠ idx + 2 →
     symmetrizeSignalZero y (Some idx) = Raise ValueError
     ∧ antiSymmetrizeSignalZero y (Some idx) = Raise ValueError).
Proof.
  intros Hodd Hidx.
  assert (HN : 0 < length y) by (destruct (length y); [done | lia]).
  destruct (explicit_pivot_lengths y idx HN Hidx) as (Ha & Hb & Hlt).
  rewrite length_reversed in Hb.
  destruct (explicit_pivot_outcome PrimFloat.add y idx Hodd Hidx)
    as (Hadd1 & Hadd2 & Hadd3).
  destruct (explicit_pivot_outcome PrimFloat.sub y idx Hodd Hidx)
    as (Hsub1 & Hsub2 & Hsub3).
  rewrite symmetrizeSignalZero_odd, antiSymmetrizeSignalZero_odd by done.
  rewrite center_span_pos by done. unfold np_add, np_sub, size.
  split; [lia|]. split; [|split].
  - intros H1. by rewrite Hadd1, Hsub1.
  - intros H1 HN1 Hend.
    destruct (Hadd2 H1 HN1 Hend) as (v & s & Hv & Hs & Hl & Hel).
    destruct (Hsub2 H1 HN1 Hend) as (v' & s' & Hv' & Hs' & Hl' & Hel').
    assert (v' = v) as -> by congruence.
    exists v, (np_halve s), (np_halve s'). rewrite Hs, Hs'.
    split; [done|]. split; [done|]. split; [done|].
    unfold np_halve at 1 2. rewrite !length_fmap.
    split; [done|]. split; [done|].
    intros n Hn. destruct (Hel n Hn) as (u & Hu & Hsn).
    destruct (Hel' n Hn) as (u' & Hu' & Hsn').
    assert (u' = u) as -> by congruence.
    exists u. split; [done|].
    split; by apply lookup_np_halve.
  - intros H1 HN1 Hend. by rewrite Hadd3, Hsub3.
Qed.

Lemma X2_explicit_pivot_outcome_witness :
  symmetrizeSignalZero [1; 2; 3; 4; 5]%float (Some 1) = Ok []
  ∧ antiSymmetrizeSignalZero [1; 2; 3; 4; 5]%float (Some 1) = Ok [].
Proof.
  destruct (X2_explicit_pivot_outcome [1; 2; 3; 4; 5]%float 1) as (_ & H & _).
  - reflexivity.
  - lia.
  - apply H. by left.
Defined.

(** ** Up and down sweeps of any length *)

Lemma slice_app_from {A} (y : list A) a b :
  a ≤ b → slice y a b ++ slice_from y b = slice_from y a.
Proof.
  intros Hab. unfold slice, slice_from.
  replace (drop b y) with (drop (b - a) (drop a y))
    by (rewrite drop_drop; f_equal; lia).
  apply take_drop.
Qed.

Lemma quarters_ordered (n : nat) :
  n / 4 ≤ 2 * n / 4 ∧ 2 * n / 4 ≤ 3 * n / 4 ∧ 3 * n / 4 ≤ n.
Proof.
  pose proof (Nat.div_mod_eq n 4). pose proof (Nat.mod_upper_bound n 4).
  pose proof (Nat.div_mod_eq (2 * n) 4).
  pose proof (Nat.mod_upper_bound (2 * n) 4).
  pose proof (Nat.div_mod_eq (3 * n) 4).
  pose proof (Nat.mod_upper_bound (3 * n) 4).
  lia.
Qed.

Lemma length_halves (y : ndarray) :
  length (lower_half y)
  = length y / 4 + (3 * length y / 4 - 2 * length y / 4)
  ∧ length (upper_half y)
    = (2 * length y / 4 - length y / 4) + (length y - 3 * length y / 4).
Proof.
  destruct (quarters_ordered (length y)) as (H1 & H2 & H3).
  unfold lower_half, upper_half, hstack, slice_from, size.
  rewrite !length_app, !length_slice, length_drop. lia.
Qed.

(** X3: whatever the length of the signal, the four slices the up/down
    functions take are consecutive and cover it: [yL] and [yU] together hold
    every sample exactly once, so their lengths add up to [N]. *)
Theorem X3_halves_partition (y : ndarray) :
  y = slice y 0 (length y / 4)
      ++ slice y (length y / 4) (2 * length y / 4)
      ++ slice y (2 * length y / 4) (3 * length y / 4)
      ++ slice_from y (3 * length y / 4)
  ∧ lower_half y ++ upper_half y ≡ₚ y
  ∧ length (lower_half y) + length (upper_half y) = length y.
Proof.
  destruct (quarters_ordered (length y)) as (H1 & H2 & H3).
  assert (Hcover : y = slice y 0 (length y / 4)
      ++ slice y (length y / 4) (2 * length y / 4)
      ++ slice y (2 * length y / 4) (3 * length y / 4)
      ++ slice_from y (3 * length y / 4)).
  { rewrite !slice_app_from by lia. unfold slice_from. by rewrite drop_0. }
  split; [done|]. split.
  - rewrite Hcover at 3. unfold lower_half, upper_half, hstack, size.
    rewrite <- !(assoc_L (++)). f_equiv.
    rewrite !(assoc_L (++)). f_equiv. apply Permutation_app_comm.
  - destruct (length_halves y) as [-> ->]. lia.
Qed.

Lemma symmetrizeSignal_shift_loop (y : ndarray) step :
  length y mod 2 = 0 → symmetrizeSignal y step = shift_loop PrimFloat.add y step.
Proof. apply symmetrizeSignal_even. Qed.

Lemma antiSymmetrizeSignal_shift_loop (y : ndarray) step :
  length y mod 2 = 0 → antiSymmetrizeSignal y step = shift_loop PrimFloat.sub y step.
Proof. apply antiSymmetrizeSignal_even. Qed.

(** What the up/down functions do with a shift symmetrizer [f], read off
    the three outcomes of [f] alone. *)
Section up_down_outcome.
Variable f : ndarray → nat → result ndarray.
Hypothesis f_odd : ∀ h step,
  length h mod 2 = 1 → f h step = Raise (Exception msg_even).
Hypothesis f_ok : ∀ h step,
  length h mod 2 = 0 → length h = 0 ∨ step ≤ length h / 2 →
  ∃ s, f h step = Ok s ∧ length s = length h / 2.
Hypothesis f_index : ∀ h step,
  length h mod 2 = 0 → 0 < length h → length h / 2 < step →
  f h step = Raise IndexError.
Variable y : ndarray.
Variable step : nat.

Let up_down : result ndarray :=
  sL ← f (lower_half y) step; sU ← f (upper_half y) step; Ok (hstack sL sU).

Lemma f_even_not_parity h msg :
  length h mod 2 = 0 → f h step ≠ Raise (Exception msg).
Proof.
  intros He. destruct (decide (length h = 0 ∨ step ≤ length h / 2)) as [H|H].
  - destruct (f_ok h step He H) as (s & -> & _). done.
  - rewrite f_index by lia. done.
Qed.

Lemma halves_parity :
  (length y mod 2 = 0 →
     length (lower_half y) mod 2 = 0 ∧ length (upper_half y) mod 2 = 0
     ∧ length (lower_half y) / 2 = length y / 4
     ∧ length y / 4 ≤ length (upper_half y) / 2
     ∧ length (lower_half y) / 2 + length (upper_half y) / 2 = length y / 2)
  ∧ (length y mod 2 = 1 →
     length (lower_half y) mod 2 = 1 ∨ length (upper_half y) mod 2 = 1).
Proof.
  destruct (length_halves y) as [HL HU].
  set (N := length y) in *. set (L := length (lower_half y)) in *.
  set (U := length (upper_half y)) in *.
  pose proof (Nat.div_mod_eq N 4). pose proof (Nat.mod_upper_bound N 4).
  pose proof (Nat.div_mod_eq (2 * N) 4).
  pose proof (Nat.mod_upper_bound (2 * N) 4).
  pose proof (Nat.div_mod_eq (3 * N) 4).
  pose proof (Nat.mod_upper_bound (3 * N) 4).
  pose proof (Nat.div_mod_eq N 2). pose proof (Nat.mod_upper_bound N 2).
  pose proof (Nat.div_mod_eq L 2). pose proof (Nat.mod_upper_bound L 2).
  pose proof (Nat.div_mod_eq U 2). pose proof (Nat.mod_upper_bound U 2).
  split; intros Hpar; lia.
Qed.

Lemma up_down_odd_never_returns s :
  length y mod 2 = 1 → up_down ≠ Ok s.
Proof.
  intros Hodd. unfold up_down.
  destruct (proj2 halves_parity Hodd) as [HL|HU].
  - rewrite (f_odd (lower_half y)) by done. by simpl.
  - destruct (f (lower_half y) step); [|by simpl].
    rewrite (f_odd (upper_half y)) by done. by simpl.
Qed.

Lemma up_down_even_not_parity msg :
  length y mod 2 = 0 → up_down ≠ Raise (Exception msg).
Proof.
  intros He. unfold up_down.
  destruct (proj1 halves_parity He) as (HL & HU & _).
  pose proof (f_even_not_parity (lower_half y) msg HL).
  pose proof (f_even_not_parity (upper_half y) msg HU).
  destruct (f (lower_half y) step); [|by simpl].
  destruct (f (upper_half y) step); by simpl.
Qed.

Lemma up_down_even_returns :
  length y mod 2 = 0 → step ≤ length y / 4 →
  ∃ s, up_down = Ok s ∧ length s = length y / 2.
Proof.
  intros He Hstep. unfold up_down.
  destruct (proj1 halves_parity He) as (HL & HU & HqL & HqU & Hsum).
  destruct (f_ok (lower_half y) step HL) as (sL & -> & HsL); [lia|].
  destruct (f_ok (upper_half y) step HU) as (sU & -> & HsU); [lia|].
  exists (hstack sL sU). split; [done|].
  unfold hstack. rewrite length_app. lia.
Qed.

End up_down_outcome.

Lemma symmetrizeSignal_outcome_ok (h : ndarray) step :
  length h mod 2 = 0 → length h = 0 ∨ step ≤ length h / 2 →
  ∃ s, symmetrizeSignal h step = Ok s ∧ length s = length h / 2.
Proof.
  intros He Hs. rewrite symmetrizeSignal_even by done. by apply shift_outcome_ok.
Qed.

Lemma symmetrizeSignal_outcome_index (h : ndarray) step :
  length h mod 2 = 0 → 0 < length h → length h / 2 < step →
  symmetrizeSignal h step = Raise IndexError.
Proof.
  intros He Hp Hs. rewrite symmetrizeSignal_even by done.
  by apply shift_outcome_index.
Qed.

Lemma antiSymmetrizeSignal_outcome_ok (h : ndarray) step :
  length h mod 2 = 0 → length h = 0 ∨ step ≤ length h / 2 →
  ∃ s, antiSymmetrizeSignal h step = Ok s ∧ length s = length h / 2.
Proof.
  intros He Hs. rewrite antiSymmetrizeSignal_even by done.
  by apply shift_outcome_ok.
Qed.

Lemma antiSymmetrizeSignal_outcome_index (h : ndarray) step :
  length h mod 2 = 0 → 0 < length h → length h / 2 < step →
  antiSymmetrizeSignal h step = Raise IndexError.
Proof.
  intros He Hp Hs. rewrite antiSymmetrizeSignal_even by done.
  by apply shift_outcome_index.
Qed.

(** X4: the up/down functions on a signal of any length. On an odd length
    one of the two halves is odd, so the call never returns; on an even
    length both halves are even, so the "even number of elements" exception
    is never raised, and with [step <= N/4] the call returns [N/2] samples,
    also when [N] is 2 and not 0 modulo 4. *)
Theorem X4_up_down_any_length (y : ndarray) (step : nat) :
  (length y mod 2 = 1 →
     ∀ s, symmetrizeSignalUpDown y step ≠ Ok s
          ∧ antiSymmetrizeSignalUpDown y step ≠ Ok s)
  ∧ (length y mod 2 = 0 →
     ∀ msg, symmetrizeSignalUpDown y step ≠ Raise (Exception msg)
            ∧ antiSymmetrizeSignalUpDown y step ≠ Raise (Exception msg))
  ∧ (length y mod 2 = 0 → step ≤ length y / 4 →
     (∃ s, symmetrizeSignalUpDown y step = Ok s ∧ length s = length y / 2)
     ∧ (∃ s, antiSymmetrizeSignalUpDown y step = Ok s
             ∧ length s = length y / 2)).
Proof.
  split; [|split].
  - intros Hodd s. split.
    + apply (up_down_odd_never_returns symmetrizeSignal
               symmetrizeSignal_parity y step s Hodd).
    + apply (up_down_odd_never_returns antiSymmetrizeSignal
               antiSymmetrizeSignal_parity y step s Hodd).
  - intros He msg. split.
    + apply (up_down_even_not_parity symmetrizeSignal
               symmetrizeSignal_outcome_ok symmetrizeSignal_outcome_index
               y step msg He).
    + apply (up_down_even_not_parity antiSymmetrizeSignal
               antiSymmetrizeSignal_outcome_ok antiSymmetrizeSignal_outcome_index
               y step msg He).
  - intros He Hstep. split.
    + apply (up_down_even_returns symmetrizeSignal
               symmetrizeSignal_outcome_ok y step He Hstep).
    + apply (up_down_even_returns antiSymmetrizeSignal
               antiSymmetrizeSignal_outcome_ok y step He Hstep).
Qed.

Lemma X4_up_down_any_length_witness :
  (∃ s, symmetrizeSignalUpDown [0; 1; 2; 3; 4; 5]%float 1 = Ok s ∧ length s = 3)
  ∧ symmetrizeSignalUpDown [0; 1; 2; 3; 4]%float 1 ≠ Ok [].
Proof.
  split.
  - apply (proj2 (proj2 (X4_up_down_any_length [0; 1; 2; 3; 4; 5]%float 1))).
    + reflexivity.
    + simpl. lia.
  - apply (proj1 (X4_up_down_any_length [0; 1; 2; 3; 4]%float 1)). reflexivity.
Defined.

(** ** The up/down functions at the quarter step *)

Lemma shift_loop_elements op (y : ndarray) step :
  (∀ n, n < length y / 2 → n + step < length y) →
  ∃ s, shift_loop op y step = Ok s
       ∧ length s = length y / 2
       ∧ ∀ n, n < length y / 2 →
           ∃ u v, y !! n = Some u ∧ y !! (n + step) = Some v
                  ∧ s !! n = Some (halve (op u v)).
Proof. apply shift_loop_ok. Qed.

Lemma lookup_quadrant (y : ndarray) k n :
  n < length y / 4 → quadrant y k !! n = y !! (k * (length y / 4) + n).
Proof. intros Hn. unfold quadrant. by rewrite lookup_take_lt, lookup_drop. Qed.

Section quarter_step.
Variable y : ndarray.
Hypothesis Hdiv : length y mod 4 = 0.

Lemma lookup_lower_half_1 n :
  n < length y / 4 → lower_half y !! n = y !! n.
Proof.
  intros Hn. rewrite lower_half_quadrants by done.
  rewrite lookup_app_l by (rewrite length_quadrant by (done || lia); done).
  by rewrite lookup_quadrant.
Qed.

Lemma lookup_lower_half_2 n :
  n < length y / 4 →
  lower_half y !! (n + length y / 4) = y !! (n + length y / 2).
Proof.
  intros Hn. pose proof (length_quarters y Hdiv) as HN.
  destruct (half_even y Hdiv) as [Hev Hq].
  pose proof (even_halves _ Hev) as Hh.
  rewrite lower_half_quadrants by done.
  rewrite lookup_app_r by (rewrite length_quadrant by (done || lia); lia).
  rewrite length_quadrant by (done || lia).
  rewrite lookup_quadrant by lia. f_equal. lia.
Qed.

Lemma lookup_upper_half_1 n :
  n < length y / 4 → upper_half y !! n = y !! (n + length y / 4).
Proof.
  intros Hn. rewrite upper_half_quadrants by done.
  rewrite lookup_app_l by (rewrite length_quadrant by (done || lia); done).
  rewrite lookup_quadrant by done. f_equal. lia.
Qed.

Lemma lookup_upper_half_2 n :
  n < length y / 4 →
  upper_half y !! (n + length y / 4) = y !! (n + length y / 4 + length y / 2).
Proof.
  intros Hn. pose proof (length_quarters y Hdiv) as HN.
  destruct (half_even y Hdiv) as [Hev Hq].
  pose proof (even_halves _ Hev) as Hh.
  rewrite upper_half_quadrants by done.
  rewrite lookup_app_r by (rewrite length_quadrant by (done || lia); lia).
  rewrite length_quadrant by (done || lia).
  rewrite lookup_quadrant by lia. f_equal. lia.
Qed.

Lemma up_down_quarter_step op :
  ∃ s, shift_loop op y (length y / 2) = Ok s
       ∧ (sL ← shift_loop op (lower_half y) (length y / 4);
          sU ← shift_loop op (upper_half y) (length y / 4);
          Ok (hstack sL sU)) = Ok s.
Proof.
  pose proof (length_quarters y Hdiv) as HN.
  destruct (half_even y Hdiv) as [Hev Hq].
  pose proof (even_halves _ Hev) as Hh.
  pose proof (length_lower_half y Hdiv) as HlL.
  pose proof (length_upper_half y Hdiv) as HlU.
  destruct (shift_loop_elements op y (length y / 2)) as (s & Hs & Hls & Hel);
    [intros n Hn; lia|].
  destruct (shift_loop_elements op (lower_half y) (length y / 4))
    as (sL & HsL & HlsL & HelL); [intros n Hn; rewrite HlL, Hq in *; lia|].
  destruct (shift_loop_elements op (upper_half y) (length y / 4))
    as (sU & HsU & HlsU & HelU); [intros n Hn; rewrite HlU, Hq in *; lia|].
  rewrite HlL, Hq in HlsL, HelL. rewrite HlU, Hq in HlsU, HelU.
  exists s. split; [done|]. rewrite HsL, HsU. simpl. f_equal.
  unfold hstack. apply list_eq. intros i.
  destruct (decide (i < length y / 4)) as [Hi|Hi].
  - rewrite lookup_app_l by lia.
    destruct (HelL i Hi) as (u & v & Hu & Hv & ->).
    destruct (Hel i) as (u' & v' & Hu' & Hv' & ->); [lia|].
    rewrite lookup_lower_half_1 in Hu by done.
    rewrite lookup_lower_half_2 in Hv by done.
    congruence.
  - destruct (decide (i < length y / 2)) as [Hi2|Hi2].
    + rewrite lookup_app_r, HlsL by lia.
      destruct (HelU (i - length y / 4)) as (u & v & Hu & Hv & ->); [lia|].
      destruct (Hel i Hi2) as (u' & v' & Hu' & Hv' & ->).
      rewrite lookup_upper_half_1 in Hu by lia.
      rewrite lookup_upper_half_2 in Hv by lia.
      replace (i - length y / 4 + length y / 4) with i in Hu, Hv by lia.
      congruence.
    + rewrite !lookup_ge_None_2; [done | lia |].
      rewrite length_app. lia.
Qed.

End quarter_step.

(** X5: on a signal whose length is a multiple of 4, the up/down functions
    called with the quarter step [N/4] return, and return exactly what the
    shift functions return on the whole signal with the half step [N/2]:
    sample [m] of the result pairs [y[m]] with [y[m + N/2]]. *)
Theorem X5_up_down_quarter_step (y : ndarray) :
  length y mod 4 = 0 →
  (∃ s, symmetrizeSignalUpDown y (length y / 4) = Ok s
        ∧ symmetrizeSignal y (length y / 2) = Ok s)
  ∧ (∃ s, antiSymmetrizeSignalUpDown y (length y / 4) = Ok s
        ∧ antiSymmetrizeSignal y (length y / 2) = Ok s).
Proof.
  intros Hdiv.
  destruct (half_even y Hdiv) as [Hev Hq].
  assert (He : length y mod 2 = 0).
  { pose proof (length_quarters y Hdiv). pose proof (Nat.div_mod_eq (length y) 2).
    pose proof (Nat.mod_upper_bound (length y) 2). lia. }
  assert (HeL : length (lower_half y) mod 2 = 0)
    by by rewrite length_lower_half.
  assert (HeU : length (upper_half y) mod 2 = 0)
    by by rewrite length_upper_half.
  split.
  - destruct (up_down_quarter_step y Hdiv PrimFloat.add) as (s & Hs & Hud).
    exists s. unfold symmetrizeSignalUpDown.
    by rewrite !symmetrizeSignal_shift_loop.
  - destruct (up_down_quarter_step y Hdiv PrimFloat.sub) as (s & Hs & Hud).
    exists s. unfold antiSymmetrizeSignalUpDown.
    by rewrite !antiSymmetrizeSignal_shift_loop.
Qed.

Lemma X5_up_down_quarter_step_witness :
  ∃ s, symmetrizeSignalUpDown [0; 1; 2; 3; 4; 5; 6; 7]%float 2 = Ok s
       ∧ symmetrizeSignal [0; 1; 2; 3; 4; 5; 6; 7]%float 4 = Ok s.
Proof.
  destruct (X5_up_down_quarter_step [0; 1; 2; 3; 4; 5; 6; 7]%float) as [H _].
  - reflexivity.
  - exact H.
Defined.

(** ** The two outputs of [separateAlternatingSignal] *)

Lemma stride2_lengths_bounded {A} n :
  ∀ x : list A, length x ≤ n →
    length (stride2 x) + length (stride2 (drop 1 x)) = length x
    ∧ length (stride2 (drop 1 x)) ≤ length (stride2 x)
    ∧ length (stride2 x) ≤ S (length (stride2 (drop 1 x))).
Proof.
  induction n as [|n IH]; intros [|a [|b x]] Hlen; simpl in Hlen;
    try (simpl; lia).
  assert (He : stride2 (a :: b :: x) = a :: stride2 x) by done.
  assert (Ho : stride2 (drop 1 (a :: b :: x)) = b :: stride2 (drop 1 x))
    by (by destruct x).
  rewrite He, Ho. simpl length.
  destruct (IH x) as (H1 & H2 & H3); lia.
Qed.

Lemma stride2_lengths {A} (x : list A) :
  length (stride2 x) = (length x + 1) / 2
  ∧ length (stride2 (drop 1 x)) = length x / 2.
Proof.
  destruct (stride2_lengths_bounded (length x) x) as (H1 & H2 & H3); [done|].
  pose proof (Nat.div_mod_eq (length x) 2).
  pose proof (Nat.mod_upper_bound (length x) 2).
  pose proof (Nat.div_mod_eq (length x + 1) 2).
  pose proof (Nat.mod_upper_bound (length x + 1) 2).
  lia.
Qed.

(** X6: of [N] samples [separateAlternatingSignal] puts [(N+1)/2] into the
    first output and [N/2] into the second: the two outputs have the same
    length exactly when [N] is even, and otherwise the first has one sample
    more. *)
Theorem X6_separate_alternating_lengths {A : Type} (x : list A) :
  length (separateAlternatingSignal x).1 = (length x + 1) / 2
  ∧ length (separateAlternatingSignal x).2 = length x / 2
  ∧ (length (separateAlternatingSignal x).1
     = length (separateAlternatingSignal x).2 ↔ length x mod 2 = 0).
Proof.
  unfold separateAlternatingSignal, slice_step2. simpl fst. simpl snd.
  rewrite drop_0. destruct (stride2_lengths x) as [-> ->].
  split; [done|]. split; [done|].
  pose proof (Nat.div_mod_eq (length x) 2).
  pose proof (Nat.mod_upper_bound (length x) 2).
  pose proof (Nat.div_mod_eq (length x + 1) 2).
  pose proof (Nat.mod_upper_bound (length x + 1) 2).
  lia.
Qed.

(** ** [processData] and [ndarrayToList] of the widget *)

(** The difference [y[0::2] - y[1::2]] that [processData] starts with. *)
Lemma alternating_difference_even (y : ndarray) :
  length y mod 2 = 0 →
  np_sub (separateAlternatingSignal y).1 (separateAlternatingSignal y).2
  = Ok (zip_with PrimFloat.sub (stride2 y) (stride2 (drop 1 y))).
Proof.
  intros He. unfold separateAlternatingSignal, slice_step2, np_sub.
  simpl fst. simpl snd. rewrite drop_0.
  apply broadcast_same_length.
  destruct (stride2_lengths y) as [-> ->].
  pose proof (Nat.div_mod_eq (length y) 2).
  pose proof (Nat.div_mod_eq (length y + 1) 2).
  pose proof (Nat.mod_upper_bound (length y + 1) 2).
  lia.
Qed.

Lemma alternating_difference_odd (y : ndarray) :
  length y mod 2 = 1 → 5 ≤ length y →
  np_sub (separateAlternatingSignal y).1 (separateAlternatingSignal y).2
  = Raise ValueError.
Proof.
  intros Ho H5. unfold separateAlternatingSignal, slice_step2, np_sub.
  simpl fst. simpl snd. rewrite drop_0.
  destruct (stride2_lengths y) as [He Hd].
  pose proof (Nat.div_mod_eq (length y) 2).
  pose proof (Nat.div_mod_eq (length y + 1) 2).
  pose proof (Nat.mod_upper_bound (length y + 1) 2).
  apply broadcast_mismatch; lia.
Qed.


Lemma lookup_alternating_difference (y : ndarray) n :
  n < length y / 2 →
  ∃ u v, y !! (2 * n) = Some u ∧ y !! (2 * n + 1) = Some v
         ∧ zip_with PrimFloat.sub (stride2 y) (stride2 (drop 1 y)) !! n
           = Some (PrimFloat.sub u v).
Proof.
  intros Hn. pose proof (Nat.div_mod_eq (length y) 2).
  destruct (lookup_lt_is_Some_2 y (2 * n)) as [u Hu]; [lia|].
  destruct (lookup_lt_is_Some_2 y (2 * n + 1)) as [v Hv]; [lia|].
  exists u, v. split; [done|]. split; [done|].
  rewrite lookup_zip_with, !lookup_stride2, lookup_drop, Hu.
  replace (1 + 2 * n) with (2 * n + 1) by lia. by rewrite Hv.
Qed.





(** X8: on an even-length [y] and with the Normalize, Symmetrize and
    Antisymmetrize boxes unchecked, [processData] returns every second
    sample of [x] and the [N/2] differences [y[2n] - y[2n+1]]; the Average
    box changes nothing. When [x] is as long as [y] the two returned arrays
    have the same length. *)
Theorem X8_processData_even (self : plotWidget) :
  length (self_y self) mod 2 = 0 →
  self_norm self = false → self_symmetrize self = false →
  self_antiSymmetrize self = false →
  ∃ x' y', processData self = Return (x', y')
    ∧ (∀ n, x' !! n = self_x self !! (2 * n))
    ∧ length y' = length (self_y self) / 2
    ∧ (∀ n, n < length (self_y self) / 2 →
         ∃ u v, self_y self !! (2 * n) = Some u
                ∧ self_y self !! (2 * n + 1) = Some v
                ∧ y' !! n = Some (PrimFloat.sub u v))
    ∧ (length (self_x self) = length (self_y self) → length x' = length y').
Proof.
  intros He Hn Hs Ha.
  exists (stride2 (self_x self)),
         (zip_with PrimFloat.sub (stride2 (self_y self))
            (stride2 (drop 1 (self_y self)))).
  destruct (stride2_lengths (self_y self)) as [Hle Hlo].
  destruct (stride2_lengths (self_x self)) as [Hlx _].
  assert (Hlen : length (zip_with PrimFloat.sub (stride2 (self_y self))
                   (stride2 (drop 1 (self_y self))))
                 = length (self_y self) / 2).
  { rewrite length_zip_with, Hle, Hlo.
    pose proof (Nat.div_mod_eq (length (self_y self)) 2).
    pose proof (Nat.div_mod_eq (length (self_y self) + 1) 2).
    pose proof (Nat.mod_upper_bound (length (self_y self) + 1) 2).
    lia. }
  split; [|split; [|split; [|split]]].
  - unfold processData. rewrite alternating_difference_even by done.
    rewrite Hn, Hs, Ha. simpl. by destruct (self_average self).
  - intros n. apply lookup_stride2.
  - done.
  - intros n Hlt. by apply lookup_alternating_difference.
  - intros Hxy. rewrite Hlen, Hlx, Hxy.
    pose proof (Nat.div_mod_eq (length (self_y self)) 2).
    pose proof (Nat.div_mod_eq (length (self_y self) + 1) 2).
    pose proof (Nat.mod_upper_bound (length (self_y self) + 1) 2).
    lia.
Qed.

Lemma X8_processData_even_witness :
  ∃ x' y',
    processData {| self_x := [1; 2; 3; 4]%float; self_y := [5; 1; 7; 2]%float;
                   self_average := true; self_symmetrize := false;
                   self_antiSymmetrize := false; self_norm := false |}
    = Return (x', y') ∧ length y' = 2.
Proof.
  destruct (X8_processData_even
              {| self_x := [1; 2; 3; 4]%float; self_y := [5; 1; 7; 2]%float;
                 self_average := true; self_symmetrize := false;
                 self_antiSymmetrize := false; self_norm := false |})
    as (x' & y' & H & _ & Hl & _); try reflexivity.
  exists x', y'. split; [exact H | exact Hl].
Defined.

(** [processData] on three samples: the shapes [(2,)] and [(1,)] broadcast,
    so the call does not fail. *)
Lemma alternating_difference_three (a b c : float) :
  np_sub (separateAlternatingSignal [a; b; c]).1
         (separateAlternatingSignal [a; b; c]).2
  = Ok [PrimFloat.sub a b; PrimFloat.sub c b].
Proof. reflexivity. Qed.

(** X9: [processData] on an odd-length [y]. With five samples or more the
    two halves [y[0::2]] and [y[1::2]] differ in length by one and neither
    has one sample, so their difference raises numpy's [ValueError] and the
    call ends with it, whatever boxes are checked. With three samples the
    shapes [(2,)] and [(1,)] broadcast: the call (no box checked) does not
    fail and returns [y[0] - y[1]] and [y[2] - y[1]]. *)
Theorem X9_processData_odd (self : plotWidget) :
  (length (self_y self) mod 2 = 1 → 5 ≤ length (self_y self) →
     processData self = Fail (Lib ValueError))
  ∧ (∀ a b c, self_y self = [a; b; c] →
     self_norm self = false → self_symmetrize self = false →
     self_antiSymmetrize self = false →
     processData self
     = Return ((separateAlternatingSignal (self_x self)).1,
               [PrimFloat.sub a b; PrimFloat.sub c b])).
Proof.
  split.
  - intros Ho H5. unfold processData.
    by rewrite alternating_difference_odd.
  - intros a b c Hy Hn Hs Ha. unfold processData.
    rewrite Hy, alternating_difference_three, Hn, Hs, Ha. simpl.
    by destruct (self_average self).
Qed.

Lemma X9_processData_odd_witness :
  processData {| self_x := [1; 2; 3; 4; 5]%float;
                 self_y := [5; 1; 7; 2; 9]%float;
                 self_average := false; self_symmetrize := false;
                 self_antiSymmetrize := false; self_norm := false |}
  = Fail (Lib ValueError).
Proof. apply (proj1 (X9_processData_odd _)); [reflexivity | simpl; lia]. Defined.



(** The loop of [ndarrayToList] from [start] on appends the samples
    [array[start .. start + count - 1]]. *)
Lemma for_range_append (array : ndarray) :
  ∀ count start (acc : list float),
    start + count ≤ length array →
    for_range (λ i x, v ← getitem array i; Ok (x ++ [v])) start count acc
    = Ok (acc ++ take count (drop start array)).
Proof.
  induction count as [|c IH]; intros start acc Hlen.
  - simpl. by rewrite take_0, app_nil_r.
  - destruct (lookup_lt_is_Some_2 array start) as [v Hv]; [lia|].
    simpl. rewrite (getitem_Some _ _ _ Hv). simpl.
    rewrite IH by lia. f_equal.
    rewrite <- (assoc_L (++)). f_equal.
    rewrite (drop_S _ _ _ Hv). done.
Qed.

(** X11: [ndarrayToList] never runs out of the array and returns its
    samples in their order: reading [array[i]] for [i] below [np.size]
    raises no [IndexError], whatever the length. *)
Theorem X11_ndarrayToList_copies (array : ndarray) :
  ndarrayToList array = Ok array.
Proof.
  unfold ndarrayToList, size. rewrite for_range_append by lia.
  by rewrite drop_0, take_ge.
Qed.

(** X12: [separateAlternatingSignal] undoes interleaving: for two sequences
    of the same length, or with one sample more in the first, separating
    their interleaving gives the two sequences back. With C9 this makes the
    function a one-to-one correspondence between the sequences and such
    pairs. *)
Theorem X12_separate_after_interleave {A : Type} (e o : list A) :
  length e = length o ∨ length e = S (length o) →
  separateAlternatingSignal (interleave e o) = (e, o).
Proof.
  unfold separateAlternatingSignal, slice_step2. rewrite drop_0.
  revert o. induction e as [|a e IH]; intros [|b o] Hlen; simpl in Hlen.
  - done.
  - lia.
  - assert (e = []) as -> by (destruct e; [done | simpl in Hlen; lia]). done.
  - assert (Hlen' : length e = length o ∨ length e = S (length o)) by lia.
    specialize (IH o Hlen'). injection IH as He Ho.
    change (interleave (a :: e) (b :: o)) with (a :: b :: interleave e o).
    assert (H1 : stride2 (a :: b :: interleave e o)
                 = a :: stride2 (interleave e o)) by done.
    assert (H2 : stride2 (drop 1 (a :: b :: interleave e o))
                 = b :: stride2 (drop 1 (interleave e o)))
      by (by destruct (interleave e o)).
    by rewrite H1, H2, He, Ho.
Qed.

Lemma X12_separate_after_interleave_witness :
  separateAlternatingSignal (interleave [1; 3; 5] [2; 4]) = ([1; 3; 5], [2; 4]).
Proof. apply X12_separate_after_interleave. right. reflexivity. Defined.
